(** * StackoverflowUserTypes: the expertise-shape pipeline of [main.py]

    A shallow embedding of the analytical stages of [main.py]
    (tag ranking, per-user tag reputation, shape classification, answer
    features, preference labels and the per-shape regression loop) and the
    properties of the specification that can be settled on it.

    Conventions of the embedding.
    - A Python [str] is a list of Unicode code points ([str := list N]).
    - A Python [int] is a [Z]; a Python [float] is an IEEE-754 binary64
      value, [spec_float] with [prec = 53] and [emax = 1024].
    - An XML row is a record of optional attributes: [p.get("X")] is the
      field, [None] when the attribute is absent.  Attribute values that the
      program passes through [int(...)] are integers already (the typed
      record streams of the external parser).
    - A [dict] is a [gmap]; a raised exception is the [Raise] branch of
      [result]. *)

From stdpp Require Import gmap list strings sorting.
From Stdlib Require Import ZArith Lia Ascii SpecFloat.

#[local] Open Scope Z_scope.

(** ** Strings *)

Abbreviation str := (list N).

(** A string literal of the source, as its code points. *)
Definition py (s : string) : str :=
  (fun a => Ascii.N_of_ascii a) <$> String.list_ascii_of_string s.
Arguments py s%_string.

Fixpoint startswith (pre s : str) : bool :=
  match pre, s with
  | [], _ => true
  | _ :: _, [] => false
  | a :: pre', b :: s' => if decide (a = b) then startswith pre' s' else false
  end.

(** [sub in s] *)
Fixpoint contains (sub s : str) : bool :=
  startswith sub s ||
  match s with
  | [] => false
  | _ :: s' => contains sub s'
  end.

(** ** Exceptions *)

Inductive exn : Set :=
  | TypeError          (* int(None) *)
  | KeyError           (* a missing DataFrame column *)
  | ZeroDivisionError
  | OverflowError      (* int / int too large for a float *)
  | IndexError         (* a list index out of range *)
  | FitError.          (* raised by the regression solver *)

Inductive result (A : Type) : Type :=
  | Ok (a : A)
  | Raise (e : exn).
Arguments Ok {A} a.
Arguments Raise {A} e.

#[global] Instance result_ret : MRet result := @Ok.
#[global] Instance result_bind : MBind result := fun A B f m =>
  match m with
  | Ok a => f a
  | Raise e => Raise e
  end.

(** [int(x)] where [x] is an attribute that may be absent. *)
Definition int (x : option Z) : result Z :=
  match x with
  | Some z => Ok z
  | None => Raise TypeError
  end.

(** ** Stable sorting by key

    [list.sort(key=...)] and [sorted(..., key=...)] are stable: elements are
    ordered by ascending key and elements of equal key keep their input
    order.  A stable sort has one possible result, computed here by
    insertion. *)

Section SortByKey.
Context {A : Type} (key : A → Z).

Fixpoint insert_by_key (x : A) (l : list A) : list A :=
  match l with
  | [] => [x]
  | y :: l' => if key x <=? key y then x :: l else y :: insert_by_key x l'
  end.

Fixpoint sort_by_key (l : list A) : list A :=
  match l with
  | [] => []
  | x :: l' => insert_by_key x (sort_by_key l')
  end.
End SortByKey.

(** ** 1. The top tags *)

Record TagRow := { TagName : option str; Count : option Z }.

Definition TOP_N_TAGS : nat := 100.

(** [load_top_tags], with the row stream of [Tags.xml] and the constant
    [TOP_N_TAGS] as arguments. *)
Definition tag_pairs (rows : list TagRow) : list (option str * Z) :=
  (fun t => (TagName t, default 0 (Count t))) <$> rows.

Definition load_top_tags_n (n : nat) (rows : list TagRow) : list (option str) :=
  let tags := tag_pairs rows in
  let tags := sort_by_key (fun x => - x.2) tags in
  (fun t => t.1) <$> take n tags.

Definition load_top_tags : list TagRow → list (option str) :=
  load_top_tags_n TOP_N_TAGS.

(** ** 2. The per-user tag reputation *)

Record UserRow := { user_Id : option Z; Reputation : option Z }.

Record PostRow := {
  Id : option Z;
  PostTypeId : option Z;
  OwnerUserId : option Z;
  Tags : option str;
  Score : option Z;
  Body : option str;
  AcceptedAnswerId : option Z
}.

Definition MIN_REPUTATION : Z := 100.

(** *** The two bracket patterns

    [re.findall(open + "([^c]+)" + c, s)] for a literal [open] and a closing
    character [c]: at a position where [open] matches, the group is the
    longest run of characters other than [c]; the match succeeds when that
    run is not empty and is followed by [c], and scanning resumes after the
    match; otherwise scanning resumes at the next position.  [skip] counts
    the characters of the last match still to be passed over. *)

Fixpoint span_until (c : N) (s : str) : str * str :=
  match s with
  | [] => ([], [])
  | a :: s' =>
      if decide (a = c) then ([], s)
      else let '(run, rest) := span_until c s' in (a :: run, rest)
  end.

(** The group and the length of the match of [open([^c]+)c] at the head
    of [s]. *)
Definition match_group (open : str) (c : N) (s : str) : option (str * nat) :=
  if startswith open s then
    let '(run, rest) := span_until c (drop (length open) s) in
    match run, rest with
    | _ :: _, _ :: _ => Some (run, (length open + length run + 1)%nat)
    | _, _ => None
    end
  else None.

Fixpoint findall_group_from (open : str) (c : N) (skip : nat) (s : str)
  : list str :=
  match s with
  | [] => []
  | _ :: s' =>
      match skip with
      | S k => findall_group_from open c k s'
      | O =>
          match match_group open c s with
          | Some (g, len) => g :: findall_group_from open c (pred len) s'
          | None => findall_group_from open c 0 s'
          end
      end
  end.

Definition findall_group (open : str) (c : N) (s : str) : list str :=
  findall_group_from open c 0 s.

(** [re.findall(r"<([^>]+)>", tags)] *)
Definition findall_tags (tags : str) : list str :=
  findall_group (py "<") 62%N tags.

(** [t in TOP_TAGS] *)
Definition in_top_tags (TOP_TAGS : list (option str)) (t : str) : bool :=
  bool_decide (Some t ∈ TOP_TAGS).

(** *** The counters

    [user_tags] is a [defaultdict(Counter)]: reading a missing user gives an
    empty counter, reading a missing tag gives 0. *)

Abbreviation Counter := (gmap str Z).

Definition counter_of (user_tags : gmap Z (gmap str Z)) (uid : Z) : gmap str Z :=
  default ∅ (user_tags !! uid).

Definition gain_of (user_tags : gmap Z (gmap str Z)) (uid : Z) (t : str) : Z :=
  default 0 (counter_of user_tags uid !! t).

(** [user_tags[uid][t] += rep_gain] *)
Definition add_gain (uid : Z) (rep_gain : Z)
    (user_tags : gmap Z (gmap str Z)) (t : str) : gmap Z (gmap str Z) :=
  let cnt := counter_of user_tags uid in
  <[uid := <[t := default 0 (cnt !! t) + rep_gain]> cnt]> user_tags.

(** First pass: the users with at least [min_reputation]. *)
Definition user_step (min_reputation : Z) (user_rep : gmap Z Z) (u : UserRow)
  : result (gmap Z Z) :=
  uid ← int (user_Id u);
  rep ← int (Reputation u);
  mret (if bool_decide (min_reputation ≤ rep) then <[uid := rep]> user_rep
        else user_rep).

Fixpoint users_pass (min_reputation : Z) (user_rep : gmap Z Z)
    (users : list UserRow) : result (gmap Z Z) :=
  match users with
  | [] => mret user_rep
  | u :: users' =>
      user_rep' ← user_step min_reputation user_rep u;
      users_pass min_reputation user_rep' users'
  end.

(** The tags of a post that survive the allowlist. *)
Definition surviving_tags (TOP_TAGS : list (option str)) (tags : str) : list str :=
  filter (fun t => in_top_tags TOP_TAGS t = true) (findall_tags tags).

Definition rep_gain_of (p : PostRow) : Z :=
  let score := default 0 (Score p) in
  Z.max (score * 10) 0.

(** Second pass: the body of the loop over the posts. *)
Definition post_step (TOP_TAGS : list (option str)) (user_rep : gmap Z Z)
    (user_tags : gmap Z (gmap str Z)) (p : PostRow) : gmap Z (gmap str Z) :=
  match OwnerUserId p with
  | None => user_tags
  | Some uid =>
      match user_rep !! uid with
      | None => user_tags
      | Some _ =>
          match Tags p with
          | None | Some [] => user_tags
          | Some tags =>
              match surviving_tags TOP_TAGS tags with
              | [] => user_tags
              | post_tags =>
                  foldl (add_gain uid (rep_gain_of p)) user_tags post_tags
              end
          end
      end
  end.

Definition posts_pass (TOP_TAGS : list (option str)) (user_rep : gmap Z Z)
    (posts : list PostRow) : gmap Z (gmap str Z) :=
  foldl (post_step TOP_TAGS user_rep) ∅ posts.

(** [build_tag_reputation], with the two row streams, the allowlist and the
    reputation floor as arguments. *)
Definition build_tag_reputation (TOP_TAGS : list (option str))
    (min_reputation : Z) (users : list UserRow) (posts : list PostRow)
  : result (gmap Z Z * gmap Z (gmap str Z)) :=
  user_rep ← users_pass min_reputation ∅ users;
  mret (user_rep, posts_pass TOP_TAGS user_rep posts).

(** ** 3. The expertise shapes *)

Module Shape.
Inductive t : Set := I | T | Pi | Comb.

#[global] Instance eq_dec : EqDecision t.
Proof. solve_decision. Defined.

Definition code (s : t) : nat :=
  match s with Comb => 0 | I => 1 | Pi => 2 | T => 3 end%nat.

Definition of_code (n : nat) : option t :=
  match n with
  | 0 => Some Comb | 1 => Some I | 2 => Some Pi | 3 => Some T
  | _ => None
  end%nat.

#[global] Instance countable : Countable t.
Proof. apply (inj_countable code of_code). by intros []. Defined.
End Shape.

(** *** Floats

    [a / b] on two [int]s is the quotient rounded to the nearest binary64
    value, ties to even, whatever the size of [a] and [b]; it raises when
    [b] is zero and when the rounded quotient is out of range.  An integer
    is given to [SFdiv] as the mantissa of an exact, unnormalised
    [spec_float] of exponent 0. *)

Abbreviation float := spec_float.
Definition prec : Z := 53.
Definition emax : Z := 1024.

Definition float_of_int (z : Z) : float :=
  match z with
  | Z0 => S754_zero false
  | Zpos m => S754_finite false m 0
  | Zneg m => S754_finite true m 0
  end.

Definition quotient (a b : Z) : float :=
  SFdiv prec emax (float_of_int a) (float_of_int b).

Definition truediv (a b : Z) : result float :=
  if bool_decide (b = 0) then Raise ZeroDivisionError
  else match quotient a b with
       | S754_infinity _ => Raise OverflowError
       | q => Ok q
       end.

(** The decimal literals of [classify_shape]: a literal is the binary64
    value nearest to the decimal it spells. *)
Definition f0_90 : float := quotient 90 100.
Definition f0_50 : float := quotient 50 100.
Definition f0_70 : float := quotient 70 100.
Definition f0_30 : float := quotient 30 100.
Definition f0_45 : float := quotient 45 100.
Definition f0_15 : float := quotient 15 100.
Definition f0_25 : float := quotient 25 100.

(** [x <= y] and [x >= y] on floats. *)
Definition fle (x y : float) : bool := SFleb x y.
Definition fge (x y : float) : bool := SFleb y x.
(** [lo <= x <= hi] *)
Definition fbetween (lo x hi : float) : bool := fle lo x && fle x hi.
Definition fadd (x y : float) : float := SFadd prec emax x y.

Definition Zsum (l : list Z) : Z := foldr Z.add 0 l.

(** [sum(tag_counter.values())] *)
Definition total_gain (tag_counter : gmap str Z) : Z :=
  Zsum ((map_to_list tag_counter).*2).

(** [sorted(tag_counter.items(), key=lambda x: -x[1])]; the order in which
    a [gmap] lists entries of equal gain is not the insertion order of the
    [Counter], and only the gains of [items] are read below. *)
Definition sorted_items (tag_counter : gmap str Z) : list (str * Z) :=
  sort_by_key (fun x => - x.2) (map_to_list tag_counter).

(** [percs[i]] *)
Definition item (percs : list float) (i : nat) : result float :=
  match percs !! i with
  | Some p => Ok p
  | None => Raise IndexError
  end.

Definition classify_shape (tag_counter : gmap str Z)
  : result (option Shape.t) :=
  if bool_decide (tag_counter = ∅) then mret None else
  let items := sorted_items tag_counter in
  let total := total_gain tag_counter in
  if bool_decide (total = 0) then mret None else
  percs ← mapM (fun x => truediv x.2 total) items;
  (* I-shaped *)
  p0 ← item percs 0;
  if fge p0 f0_90 then mret (Some Shape.I) else
  (* T-shaped *)
  if fbetween f0_50 p0 f0_70 && bool_decide (11 ≤ length items)%nat
  then mret (Some Shape.T) else
  (* Pi-shaped *)
  is_pi ←
    (if bool_decide (2 ≤ length items)%nat && fbetween f0_30 p0 f0_45 then
       p1 ← item percs 1;
       mret (fbetween f0_30 p1 f0_45 && fge (fadd p0 p1) f0_70)
     else mret false);
  if is_pi : bool then mret (Some Shape.Pi) else
  (* Comb-shaped *)
  let top5 := take 5 percs in
  let n := length (filter (fun p => fbetween f0_15 p f0_25 = true) top5) in
  if bool_decide (3 ≤ n ≤ 5)%nat && fle p0 f0_30
  then mret (Some Shape.Comb) else
  mret None.

(** The loop that fills [user_shape]. *)
Definition shape_step (user_shape : gmap Z Shape.t)
    (entry : Z * gmap str Z) : result (gmap Z Shape.t) :=
  sh ← classify_shape entry.2;
  mret (match sh with
        | Some sh => <[entry.1 := sh]> user_shape
        | None => user_shape
        end).

Fixpoint shapes_pass (user_shape : gmap Z Shape.t)
    (entries : list (Z * gmap str Z)) : result (gmap Z Shape.t) :=
  match entries with
  | [] => mret user_shape
  | e :: entries' =>
      user_shape' ← shape_step user_shape e;
      shapes_pass user_shape' entries'
  end.

Definition classify_users (user_tags : gmap Z (gmap str Z))
  : result (gmap Z Shape.t) :=
  shapes_pass ∅ (map_to_list user_tags).

(** ** 4. The answer features *)

Definition MIN_CODE_LINES : nat := 5.
Definition WORD_THRESHOLD_SHORT : nat := 150.
Definition WORD_THRESHOLD_LONG : nat := 400.

Inductive LengthBucket : Set := Long | Summarized | Medium.

Record Features := {
  length_bucket : LengthBucket;   (* "length" *)
  has_code : bool;
  has_image : bool;
  has_ref : bool;
  word_count : nat
}.

(** The line boundaries of [str.splitlines]. *)
Definition is_linebreak (c : N) : bool :=
  bool_decide (c ∈ [10; 11; 12; 13; 28; 29; 30; 133; 8232; 8233]%N).

(** [len(cb.splitlines())]; [open_line] tells that characters were read
    since the last boundary. *)
Fixpoint count_lines (open_line : bool) (s : str) : nat :=
  match s with
  | [] => if open_line then 1%nat else 0%nat
  | c :: s' =>
      if is_linebreak c then
        match s' with
        | d :: s'' =>
            if bool_decide (c = 13%N) && bool_decide (d = 10%N)
            then S (count_lines false s'')
            else S (count_lines false s')
        | [] => S (count_lines false s')
        end
      else count_lines true s'
  end.

(** The whitespace of [\s] on a [str]. *)
Definition is_space (c : N) : bool :=
  bool_decide ((9 ≤ c ≤ 13)%N ∨ (28 ≤ c ≤ 32)%N ∨ (8192 ≤ c ≤ 8202)%N ∨
               c ∈ [133; 160; 5760; 8232; 8233; 8239; 8287; 12288]%N).

(** The text before the first occurrence of [close] in [s]. *)
Fixpoint before_first (close s : str) : option str :=
  if startswith close s then Some []
  else match s with
       | [] => None
       | a :: s' => cons a <$> before_first close s'
       end.

(** The group and the length of the match of [open(.*?)close], with
    [re.DOTALL], at the head of [s]. *)
Definition match_lazy (open close : str) (s : str) : option (str * nat) :=
  if startswith open s then
    g ← before_first close (drop (length open) s);
    Some (g, (length open + length g + length close)%nat)
  else None.

Fixpoint findall_lazy_from (open close : str) (skip : nat) (s : str)
  : list str :=
  match s with
  | [] => []
  | _ :: s' =>
      match skip with
      | S k => findall_lazy_from open close k s'
      | O =>
          match match_lazy open close s with
          | Some (g, len) => g :: findall_lazy_from open close (pred len) s'
          | None => findall_lazy_from open close 0 s'
          end
      end
  end.

(** [re.findall(r"<code>(.*?)</code>", body, re.DOTALL)] *)
Definition findall_code (body : str) : list str :=
  findall_lazy_from (py "<code>") (py "</code>") 0 body.

(** [re.search(r"<img\s", body)] *)
Fixpoint search_img (body : str) : bool :=
  (startswith (py "<img") body &&
   match drop 4 body with
   | c :: _ => is_space c
   | [] => false
   end) ||
  match body with
  | [] => false
  | _ :: body' => search_img body'
  end.

Definition quote : N := 34.

(** The [re.findall] of the hyperlinks: the text [<a href=] and a double
    quote, then the group, one or more characters other than a double
    quote, then a double quote. *)
Definition findall_links (body : str) : list str :=
  findall_group (py "<a href=" ++ [quote]) quote body.

(** The test applied to each link. *)
Definition is_external (link : str) : bool :=
  negb (startswith (py "https://stackoverflow.com") link) &&
  negb (startswith (py "//stackoverflow.com") link).

Section AnswerFeatures.
(** [str.isalnum] on the code points from 128 on: the table of the
    Unicode database, which the source takes from the interpreter. *)
Variable unicode_alnum : N → bool.

(** The characters of [\w] on a [str]. *)
Definition is_word_char (c : N) : bool :=
  if bool_decide (c < 128)%N then
    bool_decide ((48 ≤ c ≤ 57)%N ∨ (65 ≤ c ≤ 90)%N ∨ c = 95%N ∨
                 (97 ≤ c ≤ 122)%N)
  else unicode_alnum c.

(** [len(re.findall(r"\w+", body))]: the maximal runs of word
    characters; [in_word] tells that the previous character was one. *)
Fixpoint count_words (in_word : bool) (s : str) : nat :=
  match s with
  | [] => 0%nat
  | c :: s' =>
      if is_word_char c then
        if in_word then count_words true s' else S (count_words true s')
      else count_words false s'
  end.

Definition bucket_of (words : nat) : LengthBucket :=
  if bool_decide (WORD_THRESHOLD_LONG < words)%nat then Long
  else if bool_decide (words < WORD_THRESHOLD_SHORT)%nat then Summarized
  else Medium.

(** [answer_features]; the empty dictionary is [None]. *)
Definition answer_features (body : str) : option Features :=
  match body with
  | [] => None
  | _ =>
      let words := count_words false body in
      let length := bucket_of words in
      let code_blocks := findall_code body in
      let has_code :=
        existsb (fun cb => bool_decide (MIN_CODE_LINES ≤ count_lines false cb)%nat)
                code_blocks in
      let has_image := search_img body in
      let links := findall_links body in
      let external := existsb is_external links in
      Some {| length_bucket := length; has_code := has_code;
              has_image := has_image; has_ref := external;
              word_count := words |}
  end.

(** A row of [answer_df]: the keys of [answer_features(body)], when there
    are any, and the five keys added by [feats.update]. *)
Record AnswerRow := {
  feats : option Features;
  answer_id : Z;
  owner_id : Z;
  shape : Shape.t;
  upvotes : Z;
  accepted : bool
}.

(** The body of the loop over the posts: the row appended, if any. *)
Definition answer_step (user_shape : gmap Z Shape.t) (p : PostRow)
  : result (option AnswerRow) :=
  let ptype := default 0 (PostTypeId p) in
  if bool_decide (ptype ≠ 2) then mret None else
  match OwnerUserId p with
  | None => mret None
  | Some uid =>
      match user_shape !! uid with
      | None => mret None
      | Some sh =>
          aid ← int (Id p);
          let body := default [] (Body p) in
          let feats := answer_features body in
          mret (Some {| feats := feats;
                        answer_id := aid;
                        owner_id := uid;
                        shape := sh;
                        upvotes := default 0 (Score p);
                        accepted :=
                          bool_decide (default 0 (AcceptedAnswerId p) = aid) |})
      end
  end.

Fixpoint answers_pass (user_shape : gmap Z Shape.t)
    (answer_df : list AnswerRow) (posts : list PostRow)
  : result (list AnswerRow) :=
  match posts with
  | [] => mret answer_df
  | p :: posts' =>
      row ← answer_step user_shape p;
      answers_pass user_shape
        (match row with Some r => answer_df ++ [r] | None => answer_df end)
        posts'
  end.

(** The table [answers] *)
Definition parse_answers (user_shape : gmap Z Shape.t)
    (posts : list PostRow) : result (list AnswerRow) :=
  answers_pass user_shape [] posts.
End AnswerFeatures.

(** ** 5. The preference label *)

Definition preferred (r : AnswerRow) : bool :=
  bool_decide (0 < upvotes r) || accepted r.

(** [answers["preferred"] = (answers["upvotes"] > 0) | answers["accepted"]]:
    the new column, row by row; a table built from no row has no column
    to read. *)
Definition preferred_column (answers : list AnswerRow) : result (list bool) :=
  match answers with
  | [] => Raise KeyError
  | _ => Ok (preferred <$> answers)
  end.

(** ** 6. One regression per shape *)

(** The literal [100] of the loop, the minimum segment size. *)
Definition MIN_SEGMENT_SIZE : nat := 100.

(** [answers["shape"].cat.categories]: the shapes of the table, each once,
    in the order of their names. *)
Definition categories (answers : list AnswerRow) : list Shape.t :=
  filter (fun s => s ∈ shape <$> answers)
         [Shape.Comb; Shape.I; Shape.Pi; Shape.T].

(** [answers["shape"] == shape] *)
Definition mask_of (answers : list AnswerRow) (s : Shape.t) : list bool :=
  (fun r => bool_decide (shape r = s)) <$> answers.

(** [mask.sum()] *)
Definition mask_sum (mask : list bool) : nat :=
  length (filter (fun b => b = true) mask).

(** [X[mask]] *)
Fixpoint select {A : Type} (mask : list bool) (l : list A) : list A :=
  match mask, l with
  | b :: mask', x :: l' => if b then x :: select mask' l' else select mask' l'
  | _, _ => []
  end.

Section Regression.
(** The rows of the design matrix and the coefficients are those of the
    solver, which is not part of the source: [fit X_s y_s] stands for
    [clf.fit(X_s, y_s)] followed by [clf.coef_[0]] and
    [clf.intercept_[0]], and [round3] for [round(v, 3)]. *)
Context {Xrow coef : Type}.
Variable fit : list Xrow → list Z → result (list coef * coef).
Variable round3 : coef → coef.

(** One turn of the loop over [zip(cols, coef)]. *)
Definition row_step (row : gmap str coef) (cv : str * coef) : gmap str coef :=
  let '(c, v) := cv in
  if contains (py "length") c then
    if contains (py "_Long") c
    then <[py "Answer Length (Long)" := round3 v]> row
    else if contains (py "_Summarized") c
    then <[py "Answer Length (Summ.)" := round3 v]> row
    else row
  else if contains (py "has_code") c
  then <[py "Includes Code" := round3 v]> row
  else if contains (py "has_image") c
  then <[py "Includes Image" := round3 v]> row
  else if contains (py "has_ref") c
  then <[py "Includes Reference" := round3 v]> row
  else row.

Definition table_row (cols : list str) (coefs : list coef) : gmap str coef :=
  foldl row_step ∅ (zip cols coefs).

(** The loop over [shapes]; [cols] is [X.columns]. *)
Fixpoint regression_loop (answers : list AnswerRow) (cols : list str)
    (X : list Xrow) (y : list Z) (shapes : list Shape.t)
    (results : gmap Shape.t (gmap str coef))
  : result (gmap Shape.t (gmap str coef)) :=
  match shapes with
  | [] => mret results
  | s :: shapes' =>
      let mask := mask_of answers s in
      if bool_decide (mask_sum mask < MIN_SEGMENT_SIZE)%nat
      then regression_loop answers cols X y shapes' results
      else
        let X_s := select mask X in
        let y_s := select mask y in
        fitted ← fit X_s y_s;
        let row := table_row cols fitted.1 in
        regression_loop answers cols X y shapes' (<[s := row]> results)
  end.

Definition regression_results (answers : list AnswerRow) (cols : list str)
    (X : list Xrow) (y : list Z) : result (gmap Shape.t (gmap str coef)) :=
  regression_loop answers cols X y (categories answers) ∅.
End Regression.

(** ** Vocabulary of the properties and sample inputs *)

(** The number of times [t] occurs in a list of tags. *)
Definition occurrences (t : str) (l : list str) : Z :=
  Z.of_nat (length (filter (fun t' => t' = t) l)).

(** What the counters hold at any point of the second pass. *)
Definition profile_inv (TOP_TAGS : list (option str)) (user_rep : gmap Z Z)
    (user_tags : gmap Z (gmap str Z)) : Prop :=
  ∀ uid cnt, user_tags !! uid = Some cnt →
    is_Some (user_rep !! uid) ∧
    ∀ t v, cnt !! t = Some v → Some t ∈ TOP_TAGS ∧ 0 ≤ v.

Definition post (id ptype owner : option Z) (tags : option string)
    (score : option Z) (body : option string) (acc : option Z) : PostRow :=
  {| Id := id; PostTypeId := ptype; OwnerUserId := owner;
     Tags := py <$> tags; Score := score; Body := py <$> body;
     AcceptedAnswerId := acc |}.

Definition sample_allowlist : list (option str) :=
  [Some (py "python"); Some (py "java")].

Definition sample_users : list UserRow :=
  [ {| user_Id := Some 1; Reputation := Some 150 |};
    {| user_Id := Some 2; Reputation := Some 50 |} ].

Definition sample_question : PostRow :=
  post (Some 10) (Some 1) (Some 1) (Some "<python><rust><java>") (Some 3)
       (Some "how?") (Some 11).

Definition sample_posts : list PostRow :=
  [ sample_question;
    post (Some 11) (Some 2) (Some 2) (Some "<python>") (Some 5) (Some "so") None;
    post (Some 12) (Some 1) None (Some "<java>") (Some 7) None None;
    post (Some 13) (Some 1) (Some 1) None (Some 7) None None;
    post (Some 14) (Some 1) (Some 1) (Some "<rust>") (Some 7) None None;
    post (Some 15) (Some 1) (Some 1) (Some "<java>") (Some (-2)) None None ].

(** Bodies and answers. *)
Definition ascii_only : N → bool := fun _ => false.

(** [n] words of one character each. *)
Definition words_body (n : nat) : str := concat (replicate n (py "a ")).

Definition link_body (target : string) : str :=
  py "see <a href=" ++ [quote] ++ py target ++ [quote] ++ py ">this</a>".

Definition sample_shapes : gmap Z Shape.t := {[1 := Shape.I]}.

Definition answer_without_body : PostRow :=
  post (Some 7) (Some 2) (Some 1) None (Some 4) None None.

Definition answer_of_id_zero : PostRow :=
  post (Some 0) (Some 2) (Some 1) None (Some 4) (Some "use a map") None.

Definition sample_row (s : Shape.t) (up : Z) (acc : bool) : AnswerRow :=
  {| feats := None; answer_id := 1; owner_id := 1; shape := s;
     upvotes := up; accepted := acc |}.

(** The number of answers of a shape in the table. *)
Definition segment_size (s : Shape.t) (answers : list AnswerRow) : nat :=
  length (filter (fun r => shape r = s) answers).

(** A table of 100 answers of shape I and 99 of shape T, and a solver that
    always returns. *)
Definition sample_table : list AnswerRow :=
  replicate 100 (sample_row Shape.I 1 true) ++
  replicate 99 (sample_row Shape.T 0 false).

Definition sample_fit (X_s : list (list Z)) (y_s : list Z)
  : result (list Z * Z) :=
  Ok ([], 0).

(** *** The classifier in the words of the specification

    The shares of a profile are its gains, in descending order, each
    divided by the total gain; the rules are an ordered list of
    predicate-label pairs over the share vector, and the first rule that
    matches gives the shape. *)

Definition descending : relation Z := fun a b => b ≤ a.

#[global] Instance descending_dec : RelDecision descending.
Proof. intros a b. unfold descending. apply _. Defined.

Definition spec_shares (profile : gmap str Z) : list float :=
  let gains := (map_to_list profile).*2 in
  let total := Zsum gains in
  (fun g => quotient g total) <$> merge_sort descending gains.

(** Top share at least 0.90. *)
Definition rule_I (shares : list float) : bool :=
  match shares !! 0%nat with
  | Some top => fge top f0_90
  | None => false
  end.

(** Top share in [0.50, 0.70] and at least 11 tags. *)
Definition rule_T (shares : list float) : bool :=
  match shares !! 0%nat with
  | Some top => fbetween f0_50 top f0_70 && bool_decide (11 ≤ length shares)%nat
  | None => false
  end.

(** At least 2 tags, the top two shares each in [0.30, 0.45], their sum at
    least 0.70. *)
Definition rule_Pi (shares : list float) : bool :=
  match shares !! 0%nat, shares !! 1%nat with
  | Some top, Some second =>
      fbetween f0_30 top f0_45 && fbetween f0_30 second f0_45 &&
      fge (fadd top second) f0_70
  | _, _ => false
  end.

(** Between 3 and 5 of the top 5 shares in [0.15, 0.25], and the top share
    at most 0.30. *)
Definition rule_Comb (shares : list float) : bool :=
  match shares !! 0%nat with
  | Some top =>
      let in_band :=
        length (filter (fun p => fbetween f0_15 p f0_25 = true) (take 5 shares)) in
      bool_decide (3 ≤ in_band ≤ 5)%nat && fle top f0_30
  | None => false
  end.

Definition spec_rules : list ((list float → bool) * Shape.t) :=
  [ (rule_I, Shape.I); (rule_T, Shape.T); (rule_Pi, Shape.Pi);
    (rule_Comb, Shape.Comb) ].

Fixpoint first_match (rules : list ((list float → bool) * Shape.t))
    (shares : list float) : option Shape.t :=
  match rules with
  | [] => None
  | (applies, label) :: rules' =>
      if applies shares then Some label else first_match rules' shares
  end.

Definition all_zero (profile : gmap str Z) : Prop :=
  map_Forall (fun _ g => g = 0) profile.

Definition spec_classify (profile : gmap str Z) : option Shape.t :=
  if bool_decide (profile = ∅ ∨ all_zero profile) then None
  else first_match spec_rules (spec_shares profile).

(** Profiles given by their gains. *)
Definition profile_of (gains : list (string * Z)) : gmap str Z :=
  list_to_map ((fun x => (py x.1, x.2)) <$> gains).

Definition profile_090 : gmap str Z :=
  profile_of [("python", 90); ("java", 10)].

Definition profile_089 : gmap str Z :=
  profile_of [("python", 89); ("java", 11)].

Definition profile_050_11_tags : gmap str Z :=
  profile_of [("python", 50); ("t01", 5); ("t02", 5); ("t03", 5); ("t04", 5);
              ("t05", 5); ("t06", 5); ("t07", 5); ("t08", 5); ("t09", 5);
              ("t10", 5)].

Definition profile_050_10_tags : gmap str Z :=
  profile_of [("python", 50); ("t01", 10); ("t02", 5); ("t03", 5); ("t04", 5);
              ("t05", 5); ("t06", 5); ("t07", 5); ("t08", 5); ("t09", 5)].

(** ** Further vocabulary *)

(** The reputation that the first pass keeps for [uid]: that of the last
    row of [uid] that reaches the floor. *)
Definition qualifying (min_reputation uid : Z) (u : UserRow) : option Z :=
  match user_Id u, Reputation u with
  | Some i, Some rep =>
      if bool_decide (i = uid ∧ min_reputation ≤ rep) then Some rep else None
  | _, _ => None
  end.

Definition indexed_reputation (min_reputation uid : Z) (users : list UserRow)
  : option Z :=
  last (omap (qualifying min_reputation uid) users).

(** What one post adds to the counter of [uid] for [t]. *)
Definition contribution (TOP_TAGS : list (option str)) (user_rep : gmap Z Z)
    (uid : Z) (t : str) (p : PostRow) : Z :=
  match OwnerUserId p, Tags p with
  | Some owner, Some tags =>
      if bool_decide (owner = uid ∧ is_Some (user_rep !! uid))
      then rep_gain_of p * occurrences t (surviving_tags TOP_TAGS tags)
      else 0
  | _, _ => 0
  end.

(** A tag list written the way [Posts.xml] does. *)
Definition bracketed (tags : list str) : str :=
  concat ((fun t => py "<" ++ t ++ py ">") <$> tags).

(** The loop that fills [user_shape], with the counter [shape_counts] it
    fills along: [shape_counts[sh] += 1]. *)
Definition count_step (acc : gmap Z Shape.t * gmap Shape.t Z)
    (entry : Z * gmap str Z) : result (gmap Z Shape.t * gmap Shape.t Z) :=
  sh ← classify_shape entry.2;
  mret (match sh with
        | Some sh =>
            (<[entry.1 := sh]> acc.1,
             <[sh := default 0 (acc.2 !! sh) + 1]> acc.2)
        | None => acc
        end).

Fixpoint counts_pass (acc : gmap Z Shape.t * gmap Shape.t Z)
    (entries : list (Z * gmap str Z))
  : result (gmap Z Shape.t * gmap Shape.t Z) :=
  match entries with
  | [] => mret acc
  | e :: entries' =>
      acc' ← count_step acc e;
      counts_pass acc' entries'
  end.

Definition shape_distribution (user_tags : gmap Z (gmap str Z))
  : result (gmap Z Shape.t * gmap Shape.t Z) :=
  counts_pass (∅, ∅) (map_to_list user_tags).

(** The users of a shape. *)
Definition users_of_shape (sh : Shape.t) (user_shape : gmap Z Shape.t)
  : gmap Z Shape.t :=
  filter (fun kv => kv.2 = sh) user_shape.

Abbreviation lt_sign := 60%N.

(** The line-break characters of a text. *)
Definition line_breaks (s : str) : nat :=
  length (filter (fun c => is_linebreak c = true) s).

(** A body with one code span: [before], then [code] between the two code
    tags, then [after]. *)
Definition code_body (before code after : str) : str :=
  before ++ py "<code>" ++ code ++ py "</code>" ++ after.

(** The posts that the loop over the answers keeps: answers whose owner
    has a shape. *)
Definition kept_answer (user_shape : gmap Z Shape.t) (p : PostRow) : Prop :=
  default 0 (PostTypeId p) = 2 ∧
  ∃ uid, OwnerUserId p = Some uid ∧ is_Some (user_shape !! uid).

#[global] Instance kept_answer_dec user_shape p :
  Decision (kept_answer user_shape p).
Proof.
  unfold kept_answer. destruct (OwnerUserId p) as [uid|].
  - destruct (decide (default 0 (PostTypeId p) = 2 ∧ is_Some (user_shape !! uid)))
      as [[H1 H2]|Hn].
    + left. split; [done|]. by exists uid.
    + right. intros [H1 (uid' & [= <-] & H2)]. by apply Hn.
  - right. by intros [_ (uid & [=] & _)].
Defined.

(** The columns of the printed table, in the order of [reindex]. *)
Definition REPORT_COLUMNS : list str :=
  [ py "Answer Length (Long)"; py "Answer Length (Summ.)";
    py "Includes Code"; py "Includes Image"; py "Includes Reference" ].

(** A solver that always raises. *)
Definition failing_fit (X_s : list (list Z)) (y_s : list Z)
  : result (list Z * Z) :=
  Raise FitError.

(** ** 7. The significance stars *)

Definition f0_001 : float := quotient 1 1000.
Definition f0_01 : float := quotient 1 100.
Definition f0_05 : float := quotient 5 100.

(** [x < y] on floats. *)
Definition flt (x y : float) : bool := SFltb x y.

Definition star (p : float) : str :=
  if flt p f0_001 then py "***"
  else if flt p f0_01 then py "**"
  else if flt p f0_05 then py "*"
  else py "".

(** ** The script up to the table of the answers

    The top-level statements between [load_top_tags()] and the loop over
    the answers, with the three row streams as arguments; [Posts.xml] is
    read twice. *)
Definition classified_answers (unicode_alnum : N → bool)
    (tag_rows : list TagRow) (users : list UserRow) (posts : list PostRow)
  : result (list AnswerRow) :=
  let TOP_TAGS := load_top_tags tag_rows in
  built ← build_tag_reputation TOP_TAGS MIN_REPUTATION users posts;
  user_shape ← classify_users built.2;
  parse_answers unicode_alnum user_shape posts.

(** A small run of the script: two tags, the sample users, a question and
    an answer of user 1. *)
Definition run_tags : list TagRow :=
  [ {| TagName := Some (py "python"); Count := Some 9 |};
    {| TagName := Some (py "java"); Count := Some 5 |} ].

Definition run_posts : list PostRow :=
  [ post (Some 20) (Some 1) (Some 1) (Some "<python>") (Some 3) None None;
    post (Some 21) (Some 2) (Some 1) None (Some 2) (Some "so") None ].

Definition run_row : AnswerRow :=
  {| feats := answer_features ascii_only (py "so"); answer_id := 21;
     owner_id := 1; shape := Shape.I; upvotes := 2; accepted := false |}.

(** * Properties *)

Section SortByKeyFacts.
Context {A : Type} (key : A → Z).

Lemma insert_by_key_perm x l : insert_by_key key x l ≡ₚ x :: l.
Proof.
  induction l as [|y l IH]; simpl; [done|].
  destruct (key x <=? key y); [done|].
  rewrite IH. apply Permutation_swap.
Qed.

Lemma sort_by_key_perm l : sort_by_key key l ≡ₚ l.
Proof.
  induction l as [|x l IH]; simpl; [done|].
  by rewrite insert_by_key_perm, IH.
Qed.

Lemma sort_by_key_length l : length (sort_by_key key l) = length l.
Proof. by rewrite sort_by_key_perm. Qed.

Lemma insert_by_key_sorted x l :
  StronglySorted (fun a b => key a ≤ key b) l →
  StronglySorted (fun a b => key a ≤ key b) (insert_by_key key x l).
Proof.
  induction 1 as [|y l Hl IH Hy]; simpl.
  - repeat constructor.
  - destruct (Z.leb_spec (key x) (key y)) as [Hxy|Hxy].
    + constructor; [by constructor|].
      constructor; [done|].
      eapply Forall_impl; [exact Hy|]. simpl. intros; lia.
    + constructor; [done|].
      rewrite insert_by_key_perm. constructor; [lia | done].
Qed.

Lemma sort_by_key_sorted_aux l :
  StronglySorted (fun a b => key a ≤ key b) (sort_by_key key l).
Proof.
  induction l; simpl; [constructor | by apply insert_by_key_sorted].
Qed.

Lemma StronglySorted_weaken (R1 R2 : relation A) l :
  (∀ a b, R1 a b → R2 a b) → StronglySorted R1 l → StronglySorted R2 l.
Proof.
  intros HR. induction 1 as [|a l Hl IH Ha]; constructor; [done|].
  eapply Forall_impl; [exact Ha|]. auto.
Qed.

Lemma sort_by_key_sorted l :
  StronglySorted (fun a b => key a ≤ key b) (sort_by_key key l).
Proof. apply sort_by_key_sorted_aux. Qed.

(** Stability: the elements of one key are in their input order. *)
Lemma insert_by_key_filter k x l :
  filter (fun a => key a = k) (insert_by_key key x l)
  = filter (fun a => key a = k) (x :: l).
Proof.
  induction l as [|y l IH]; simpl; [done|].
  destruct (Z.leb_spec (key x) (key y)) as [Hxy|Hxy]; [done|].
  rewrite filter_cons, IH, !filter_cons.
  destruct (decide (key y = k)), (decide (key x = k)); try done; lia.
Qed.

Lemma sort_by_key_stable k l :
  filter (fun a => key a = k) (sort_by_key key l)
  = filter (fun a => key a = k) l.
Proof.
  induction l as [|x l IH]; simpl; [done|].
  by rewrite insert_by_key_filter, !filter_cons, IH.
Qed.
End SortByKeyFacts.

(** ** The top tags *)

Lemma tag_pairs_length rows : length (tag_pairs rows) = length rows.
Proof. unfold tag_pairs. by rewrite length_fmap. Qed.

Example load_top_tags_ties :
  load_top_tags_n 3
    [ {| TagName := Some (py "c"); Count := Some 5 |};
      {| TagName := Some (py "java"); Count := Some 9 |};
      {| TagName := Some (py "python"); Count := Some 9 |};
      {| TagName := Some (py "go"); Count := None |};
      {| TagName := Some (py "rust"); Count := Some 5 |} ]
  = [Some (py "java"); Some (py "python"); Some (py "c")].
Proof. vm_compute. reflexivity. Qed.

(** C8. [load_top_tags] returns [min n (number of records)] names: those of
    the first [n] records of the ranking of the records by descending
    usage count in which records of equal count keep their input order, so
    that no record left out has a larger count than a record taken; no
    record gives no name. *)
Theorem load_top_tags_ranking (n : nat) (rows : list TagRow) :
  let records := tag_pairs rows in
  length (load_top_tags_n n rows) = Nat.min n (length rows) ∧
  (∃ ranked : list (option str * Z),
      load_top_tags_n n rows = (take n ranked).*1 ∧
      ranked ≡ₚ records ∧
      StronglySorted (fun a b => b.2 ≤ a.2) ranked ∧
      (∀ c, filter (fun r => r.2 = c) ranked = filter (fun r => r.2 = c) records) ∧
      (∀ a b, a ∈ take n ranked → b ∈ drop n ranked → b.2 ≤ a.2)) ∧
  load_top_tags_n n [] = [] ∧
  load_top_tags rows = load_top_tags_n 100 rows.
Proof.
  intros records.
  pose proof (sort_by_key_sorted (fun x : option str * Z => - x.2) records) as Hs.
  assert (Hdesc : StronglySorted (fun a b : option str * Z => b.2 ≤ a.2)
                    (sort_by_key (fun x => - x.2) records)).
  { eapply StronglySorted_weaken; [|exact Hs]. simpl. intros; lia. }
  split; [|split; [|split]].
  - unfold load_top_tags_n. fold records.
    rewrite length_fmap, length_take, sort_by_key_length.
    unfold records. rewrite tag_pairs_length. lia.
  - exists (sort_by_key (fun x => - x.2) records).
    split; [done|]. split; [apply sort_by_key_perm|]. split; [done|].
    split.
    + intros c.
      pose proof (sort_by_key_stable (fun x : option str * Z => - x.2) (- c) records) as Hst.
      erewrite (list_filter_iff _ (fun a : option str * Z => - a.2 = - c)) by (intros; lia).
      rewrite Hst. apply list_filter_iff. intros; lia.
    + intros a b Ha Hb.
      rewrite <- (take_drop n (sort_by_key _ records)) in Hdesc.
      eapply (StronglySorted_app_1_elem_of _ _ _ a b) in Hdesc; done.
  - unfold load_top_tags_n. simpl. by rewrite take_nil.
  - reflexivity.
Qed.

(** ** The per-user tag reputation *)

Lemma bind_Ok {A B} (m : result A) (f : A → result B) (b : B) :
  m ≫= f = Ok b → ∃ a, m = Ok a ∧ f a = Ok b.
Proof. destruct m as [a|e]; simpl; [eauto | discriminate]. Qed.

Lemma add_gain_lookup uid g ut t :
  add_gain uid g ut t !! uid
  = Some (<[t := gain_of ut uid t + g]> (counter_of ut uid)).
Proof. unfold add_gain, gain_of. by rewrite lookup_insert_eq. Qed.

Lemma add_gain_lookup_ne uid uid' g ut t :
  uid' ≠ uid → add_gain uid g ut t !! uid' = ut !! uid'.
Proof. intros. unfold add_gain. by rewrite lookup_insert_ne. Qed.

Lemma add_gain_gain uid g ut t t' :
  gain_of (add_gain uid g ut t) uid t'
  = gain_of ut uid t' + (if decide (t = t') then g else 0).
Proof.
  unfold gain_of at 1, counter_of at 1. rewrite add_gain_lookup. simpl.
  destruct (decide (t = t')) as [->|Hne].
  - by rewrite lookup_insert_eq.
  - rewrite lookup_insert_ne by done. unfold gain_of. lia.
Qed.

Lemma foldl_add_gain_lookup_ne uid uid' g tags ut :
  uid' ≠ uid → foldl (add_gain uid g) ut tags !! uid' = ut !! uid'.
Proof.
  intros Hne. revert ut. induction tags as [|t tags IH]; intros ut; simpl; [done|].
  by rewrite IH, add_gain_lookup_ne.
Qed.

Lemma foldl_add_gain_gain uid g tags ut t :
  gain_of (foldl (add_gain uid g) ut tags) uid t
  = gain_of ut uid t + g * occurrences t tags.
Proof.
  revert ut. induction tags as [|t' tags IH]; intros ut; simpl.
  - unfold occurrences. simpl. lia.
  - rewrite IH, add_gain_gain. unfold occurrences. rewrite filter_cons.
    destruct (decide (t' = t)); simpl length; lia.
Qed.

Lemma occurrences_NoDup t l :
  NoDup l → occurrences t l = if decide (t ∈ l) then 1 else 0.
Proof.
  unfold occurrences. induction 1 as [|x l Hx Hl IH]; simpl.
  - by destruct (decide (t ∈ [])) as [H%elem_of_nil|].
  - rewrite filter_cons. destruct (decide (x = t)) as [->|Hne].
    + simpl length. rewrite Nat2Z.inj_succ, IH.
      destruct (decide (t ∈ l)); [done|].
      destruct (decide (t ∈ t :: l)) as [|Hn]; [lia|].
      exfalso. apply Hn. left.
    + rewrite IH. destruct (decide (t ∈ l)) as [Hin|Hin].
      * destruct (decide (t ∈ x :: l)) as [|Hn]; [done|].
        exfalso. apply Hn. by right.
      * destruct (decide (t ∈ x :: l)) as [Hn|]; [|done].
        apply elem_of_cons in Hn as [->|]; done.
Qed.

Lemma add_gain_inv TOP_TAGS user_rep ut uid g t :
  is_Some (user_rep !! uid) → Some t ∈ TOP_TAGS → 0 ≤ g →
  profile_inv TOP_TAGS user_rep ut →
  profile_inv TOP_TAGS user_rep (add_gain uid g ut t).
Proof.
  intros Hu Ht Hg Hinv uid' cnt Hcnt.
  destruct (decide (uid' = uid)) as [->|Hne].
  - rewrite add_gain_lookup in Hcnt. injection Hcnt as <-.
    split; [done|]. intros t' v Hv.
    assert (Hold : ∀ t0 v0, counter_of ut uid !! t0 = Some v0 →
                            Some t0 ∈ TOP_TAGS ∧ 0 ≤ v0).
    { unfold counter_of. destruct (ut !! uid) as [c|] eqn:Hc; simpl.
      - intros t0 v0. by apply (Hinv uid c Hc).
      - intros t0 v0. by rewrite lookup_empty. }
    destruct (decide (t = t')) as [<-|Hne].
    + rewrite lookup_insert_eq in Hv. injection Hv as <-.
      split; [done|]. unfold gain_of.
      destruct (counter_of ut uid !! t) as [v0|] eqn:Hv0; simpl; [|lia].
      destruct (Hold _ _ Hv0). lia.
    + rewrite lookup_insert_ne in Hv by done. eauto.
  - rewrite add_gain_lookup_ne in Hcnt by done. eauto.
Qed.

Lemma foldl_add_gain_inv TOP_TAGS user_rep uid g tags ut :
  is_Some (user_rep !! uid) → Forall (fun t => Some t ∈ TOP_TAGS) tags → 0 ≤ g →
  profile_inv TOP_TAGS user_rep ut →
  profile_inv TOP_TAGS user_rep (foldl (add_gain uid g) ut tags).
Proof.
  intros Hu Htags Hg. revert ut.
  induction Htags as [|t tags Ht Htags IH]; intros ut Hinv; simpl; [done|].
  apply IH. by apply add_gain_inv.
Qed.

Lemma surviving_tags_allowed TOP_TAGS tags :
  Forall (fun t => Some t ∈ TOP_TAGS) (surviving_tags TOP_TAGS tags).
Proof.
  unfold surviving_tags. apply Forall_forall. intros t Ht.
  apply list_elem_of_filter in Ht as [Ht _].
  unfold in_top_tags in Ht. by apply bool_decide_eq_true in Ht.
Qed.

Lemma rep_gain_of_nonneg p : 0 ≤ rep_gain_of p.
Proof. unfold rep_gain_of. lia. Qed.

Lemma post_step_inv TOP_TAGS user_rep ut p :
  profile_inv TOP_TAGS user_rep ut →
  profile_inv TOP_TAGS user_rep (post_step TOP_TAGS user_rep ut p).
Proof.
  intros Hinv. unfold post_step.
  destruct (OwnerUserId p) as [uid|]; [|done].
  destruct (user_rep !! uid) as [rep|] eqn:Hrep; [|done].
  destruct (Tags p) as [[|c tags]|]; [done| |done].
  pose proof (surviving_tags_allowed TOP_TAGS (c :: tags)) as Hall.
  destruct (surviving_tags TOP_TAGS (c :: tags)) as [|t ts]; [done|].
  apply foldl_add_gain_inv; eauto using rep_gain_of_nonneg.
Qed.

Lemma posts_pass_inv TOP_TAGS user_rep posts :
  profile_inv TOP_TAGS user_rep (posts_pass TOP_TAGS user_rep posts).
Proof.
  unfold posts_pass.
  assert (H0 : profile_inv TOP_TAGS user_rep ∅).
  { intros uid cnt. by rewrite lookup_empty. }
  revert H0. generalize (∅ : gmap Z (gmap str Z)).
  induction posts as [|p posts IH]; intros ut Hinv; simpl; [done|].
  apply IH. by apply post_step_inv.
Qed.

(** What the index holds at any point of the first pass. *)
Lemma users_pass_inv min_reputation users user_rep0 user_rep :
  users_pass min_reputation user_rep0 users = Ok user_rep →
  ∀ uid rep, user_rep !! uid = Some rep →
    user_rep0 !! uid = Some rep ∨
    (min_reputation ≤ rep ∧
     ∃ u, u ∈ users ∧ user_Id u = Some uid ∧ Reputation u = Some rep).
Proof.
  revert user_rep0.
  induction users as [|u users IH]; intros m0 Hrun uid rep Hlook; simpl in Hrun.
  - injection Hrun as <-. by left.
  - apply bind_Ok in Hrun as (m1 & Hstep & Hrun).
    unfold user_step in Hstep.
    apply bind_Ok in Hstep as (uid0 & Huid & Hstep).
    apply bind_Ok in Hstep as (rep0 & Hrep & Hstep).
    injection Hstep as <-.
    destruct (user_Id u) as [i|] eqn:Hi; [|discriminate]. injection Huid as ->.
    destruct (Reputation u) as [r|] eqn:Hr; [|discriminate]. injection Hrep as ->.
    destruct (IH _ Hrun uid rep Hlook) as [Hold|(Hmin & u' & Hin & Hid & Hre)].
    + case_bool_decide as Hge.
      * destruct (decide (uid0 = uid)) as [->|Hne].
        -- rewrite lookup_insert_eq in Hold. injection Hold as ->.
           right. split; [done|]. exists u. split; [left|done].
        -- rewrite lookup_insert_ne in Hold by done. by left.
      * by left.
    + right. split; [done|]. exists u'. split; [by right|done].
Qed.

Lemma users_pass_total min_reputation users user_rep0 :
  Forall (fun u => is_Some (user_Id u) ∧ is_Some (Reputation u)) users →
  ∃ user_rep, users_pass min_reputation user_rep0 users = Ok user_rep.
Proof.
  intros Hall. revert user_rep0.
  induction Hall as [|u users [[i Hi] [r Hr]] _ IH]; intros m0; simpl; [eauto|].
  unfold user_step. rewrite Hi, Hr. simpl. apply IH.
Qed.

Example findall_tags_brackets :
  findall_tags (py "<python><java>x<<c++>><>")
  = [py "python"; py "java"; py "<c++"].
Proof. vm_compute. reflexivity. Qed.

Example surviving_tags_sample :
  surviving_tags sample_allowlist (py "<python><rust><java>")
  = [py "python"; py "java"].
Proof. vm_compute. reflexivity. Qed.

(** C2. Every user of the profile built by [build_tag_reputation] is in the
    reputation index, with a reputation, read from a user row, of at least
    [min_reputation], and every tag of a user's counter is in the allowlist;
    a user all of whose rows are below [min_reputation] (50 against 100,
    say) is in no profile. *)
Theorem profile_exclusivity (TOP_TAGS : list (option str)) (min_reputation : Z)
    (users : list UserRow) (posts : list PostRow)
    (user_rep : gmap Z Z) (user_tags : gmap Z (gmap str Z)) :
  build_tag_reputation TOP_TAGS min_reputation users posts
    = Ok (user_rep, user_tags) →
  (∀ uid cnt, user_tags !! uid = Some cnt →
     (∃ rep, user_rep !! uid = Some rep ∧ min_reputation ≤ rep ∧
        ∃ u, u ∈ users ∧ user_Id u = Some uid ∧ Reputation u = Some rep) ∧
     (∀ t, is_Some (cnt !! t) → Some t ∈ TOP_TAGS)) ∧
  (∀ uid,
     (∀ u rep, u ∈ users → user_Id u = Some uid → Reputation u = Some rep →
               rep < min_reputation) →
     user_tags !! uid = None).
Proof.
  intros Hbuild. unfold build_tag_reputation in Hbuild.
  apply bind_Ok in Hbuild as (rep_map & Husers & Hret).
  injection Hret as -> <-.
  pose proof (posts_pass_inv TOP_TAGS user_rep posts) as Hinv.
  pose proof (users_pass_inv _ _ _ _ Husers) as Hfloor.
  assert (Hkey : ∀ uid cnt,
            posts_pass TOP_TAGS user_rep posts !! uid = Some cnt →
            ∃ rep, user_rep !! uid = Some rep ∧ min_reputation ≤ rep ∧
              ∃ u, u ∈ users ∧ user_Id u = Some uid ∧ Reputation u = Some rep).
  { intros uid cnt Hcnt. destruct (Hinv uid cnt Hcnt) as [[rep Hrep] _].
    exists rep. split; [done|].
    destruct (Hfloor uid rep Hrep) as [Hemp|Hok]; [|done].
    by rewrite lookup_empty in Hemp. }
  split.
  - intros uid cnt Hcnt. split; [by eapply Hkey|].
    intros t [v Hv]. by destruct (proj2 (Hinv uid cnt Hcnt) t v Hv).
  - intros uid Hlow.
    destruct (posts_pass TOP_TAGS user_rep posts !! uid) as [cnt|] eqn:Hcnt; [|done].
    destruct (Hkey uid cnt Hcnt) as (rep & _ & Hmin & u & Hin & Hid & Hrep).
    specialize (Hlow u rep Hin Hid Hrep). lia.
Qed.

(** The profile of the sample streams: the user of reputation 50 is not in
    it. *)
Lemma profile_exclusivity_witness :
  posts_pass sample_allowlist {[1 := 150]} sample_posts !! 2 = None.
Proof.
  apply (proj2 (profile_exclusivity sample_allowlist MIN_REPUTATION
                  sample_users sample_posts {[1 := 150]} _ eq_refl)).
  intros u rep Hin Hid Hrep.
  apply elem_of_cons in Hin as [->|Hin]; [discriminate|].
  apply elem_of_cons in Hin as [->|Hin]; [|by apply elem_of_nil in Hin].
  injection Hrep as <-. reflexivity.
Defined.

(** The build fails only in the first pass, on a user row without [Id] or
    [Reputation]; no post makes it fail. *)
Lemma build_tag_reputation_total TOP_TAGS min_reputation users posts :
  Forall (fun u => is_Some (user_Id u) ∧ is_Some (Reputation u)) users →
  ∃ user_rep, build_tag_reputation TOP_TAGS min_reputation users posts
              = Ok (user_rep, posts_pass TOP_TAGS user_rep posts).
Proof.
  intros Hall.
  destruct (users_pass_total min_reputation users ∅ Hall) as [user_rep Hrun].
  exists user_rep. unfold build_tag_reputation. by rewrite Hrun.
Qed.

(** The second pass is the loop body applied to the posts in turn. *)
Lemma posts_pass_snoc TOP_TAGS user_rep posts p :
  posts_pass TOP_TAGS user_rep (posts ++ [p])
  = post_step TOP_TAGS user_rep (posts_pass TOP_TAGS user_rep posts) p.
Proof. unfold posts_pass. apply foldl_snoc. Qed.

(** C3. A post whose owner is in the reputation index and whose tag list
    has surviving tags adds [max (score * 10) 0] to the owner's counter of a
    tag for each time the tag occurs among the surviving tags, so once for
    each surviving tag when the post names no tag twice, and the whole gain
    each time; it changes no other user's counters.  A post with no owner,
    no tags, an owner out of the index or no allow-listed tag leaves every
    counter as it was, and the pass over the posts cannot fail: the build
    returns whenever the pass over the users does. *)
Theorem post_contribution (TOP_TAGS : list (option str)) (user_rep : gmap Z Z)
    (user_tags : gmap Z (gmap str Z)) (p : PostRow) :
  let user_tags' := post_step TOP_TAGS user_rep user_tags p in
  let gain := Z.max (default 0 (Score p) * 10) 0 in
  (∀ uid tags,
     OwnerUserId p = Some uid → is_Some (user_rep !! uid) →
     Tags p = Some tags → surviving_tags TOP_TAGS tags ≠ [] →
     let post_tags := surviving_tags TOP_TAGS tags in
     (∀ t, gain_of user_tags' uid t
           = gain_of user_tags uid t + gain * occurrences t post_tags) ∧
     (NoDup post_tags →
      ∀ t, gain_of user_tags' uid t
           = gain_of user_tags uid t + (if decide (t ∈ post_tags) then gain else 0)) ∧
     (∀ t, t ∈ post_tags ↔ t ∈ findall_tags tags ∧ Some t ∈ TOP_TAGS) ∧
     (∀ uid', uid' ≠ uid → user_tags' !! uid' = user_tags !! uid')) ∧
  (OwnerUserId p = None ∨
   Tags p = None ∨ Tags p = Some [] ∨
   (∃ uid, OwnerUserId p = Some uid ∧ user_rep !! uid = None) ∨
   (∃ tags, Tags p = Some tags ∧ surviving_tags TOP_TAGS tags = []) →
   user_tags' = user_tags) ∧
  (∀ min_reputation users posts rep_map,
     users_pass min_reputation ∅ users = Ok rep_map →
     build_tag_reputation TOP_TAGS min_reputation users posts
     = Ok (rep_map, foldl (post_step TOP_TAGS rep_map) ∅ posts)).
Proof.
  intros user_tags' gain. split; [|split].
  - intros uid tags Howner [rep Hrep] Htags Hsurv post_tags.
    assert (Hstep : user_tags' = foldl (add_gain uid gain) user_tags post_tags).
    { unfold user_tags', post_step. rewrite Howner, Hrep, Htags.
      destruct tags as [|c tags]; [done|]. fold post_tags.
      destruct post_tags; [done|]. reflexivity. }
    rewrite Hstep. split; [|split; [|split]].
    + intros t. apply foldl_add_gain_gain.
    + intros Hnd t. rewrite foldl_add_gain_gain, occurrences_NoDup by done.
      destruct (decide (t ∈ post_tags)); lia.
    + intros t. unfold post_tags, surviving_tags.
      rewrite list_elem_of_filter. unfold in_top_tags.
      rewrite bool_decide_eq_true. tauto.
    + intros uid' Hne. by apply foldl_add_gain_lookup_ne.
  - unfold user_tags', post_step.
    intros [Hnone|[Hnone|[Hnone|[(uid & Ho & Hr)|(tags & Ht & Hs)]]]].
    + by rewrite Hnone.
    + rewrite Hnone. destruct (OwnerUserId p); [|done].
      by destruct (user_rep !! z).
    + rewrite Hnone. destruct (OwnerUserId p); [|done].
      by destruct (user_rep !! z).
    + by rewrite Ho, Hr.
    + rewrite Ht, Hs. destruct (OwnerUserId p); [|done].
      destruct (user_rep !! z); [|done]. by destruct tags.
  - intros min_reputation users posts rep_map Hrun.
    unfold build_tag_reputation. by rewrite Hrun.
Qed.

(** The first sample post, of score 3 and tags python, rust and java, gives
    30 to its owner for python. *)
Lemma post_contribution_witness :
  gain_of (post_step sample_allowlist {[1 := 150]} ∅ sample_question) 1
          (py "python") = 30.
Proof.
  destruct (post_contribution sample_allowlist {[1 := 150]} ∅ sample_question)
    as [Hadd _].
  destruct (Hadd 1 (py "<python><rust><java>") eq_refl
              ltac:(by eexists) eq_refl ltac:(by vm_compute)) as [Hocc _].
  exact (Hocc (py "python")).
Defined.

(** ** Floats: the quotient of a part by the whole is in range *)

Lemma fexp_eq x : fexp prec emax x = Z.max (x - 53) (-1074).
Proof. reflexivity. Qed.

Lemma digits2_pos_size p : digits2_pos p = Pos.size p.
Proof. induction p; simpl; congruence. Qed.

Lemma Zdigits2_log2 m : 0 < m → Zdigits2 m = Z.log2 m + 1.
Proof.
  destruct m as [|p|p]; try lia. intros _. simpl. rewrite digits2_pos_size.
  destruct p; simpl; lia.
Qed.

Lemma Zdigits2_nonneg m : 0 ≤ Zdigits2 m.
Proof. destruct m; simpl; lia. Qed.

Lemma Zdigits2_le m k : 0 ≤ k → 0 ≤ m ≤ 2 ^ k → Zdigits2 m ≤ k + 1.
Proof.
  intros Hk [Hm Hle]. destruct (Z.eq_dec m 0) as [->|Hne]; [simpl; lia|].
  rewrite Zdigits2_log2 by lia.
  pose proof (Z.log2_le_mono m (2 ^ k) Hle) as Hlog.
  rewrite Z.log2_pow2 in Hlog by done. lia.
Qed.

Lemma Zdigits2_mono a b : 0 ≤ a ≤ b → Zdigits2 a ≤ Zdigits2 b.
Proof.
  intros [Ha Hab]. destruct (Z.eq_dec a 0) as [->|Hne].
  - apply Zdigits2_nonneg.
  - rewrite !Zdigits2_log2 by lia.
    pose proof (Z.log2_le_mono a b Hab). lia.
Qed.

Lemma Zdigits2_succ m : 0 ≤ m → Zdigits2 (m + 1) ≤ Zdigits2 m + 1.
Proof.
  intros Hm. destruct (Z.eq_dec m 0) as [->|Hne]; [simpl; lia|].
  rewrite !Zdigits2_log2 by lia.
  pose proof (Z.log2_le_mono (m + 1) (2 * m) ltac:(lia)) as Hlog.
  rewrite Z.log2_double in Hlog by lia. lia.
Qed.

Lemma shr_1_bound mrs :
  0 ≤ shr_m mrs → 0 ≤ shr_m (shr_1 mrs) ≤ shr_m mrs.
Proof.
  destruct mrs as [m r s]. simpl. intros Hm.
  destruct m as [|[p|p|]|p]; simpl; lia.
Qed.

Lemma iter_shr_1_bound p : ∀ mrs,
  0 ≤ shr_m mrs → 0 ≤ shr_m (iter_pos shr_1 p mrs) ≤ shr_m mrs.
Proof.
  induction p as [p IH|p IH|]; intros mrs Hm; simpl.
  - pose proof (shr_1_bound mrs Hm) as H1.
    pose proof (IH (shr_1 mrs) ltac:(lia)) as H2.
    pose proof (IH (iter_pos shr_1 p (shr_1 mrs)) ltac:(lia)) as H3. lia.
  - pose proof (IH mrs Hm) as H2.
    pose proof (IH (iter_pos shr_1 p mrs) ltac:(lia)) as H3. lia.
  - by apply shr_1_bound.
Qed.

Lemma shr_record_of_loc_m m l : shr_m (shr_record_of_loc m l) = m.
Proof. by destruct l as [|[]]. Qed.

Lemma shr_fexp_bound m e l :
  0 ≤ m →
  0 ≤ shr_m (shr_fexp prec emax m e l).1 ≤ m ∧
  (shr_fexp prec emax m e l).2 = Z.max e (fexp prec emax (Zdigits2 m + e)).
Proof.
  intros Hm. unfold shr_fexp, shr.
  destruct (fexp prec emax (Zdigits2 m + e) - e) as [|n|n] eqn:Hn; simpl.
  - rewrite shr_record_of_loc_m. lia.
  - pose proof (iter_shr_1_bound n (shr_record_of_loc m l)) as Hb.
    rewrite shr_record_of_loc_m in Hb. lia.
  - rewrite shr_record_of_loc_m. lia.
Qed.

Lemma round_nearest_even_bound m l :
  m ≤ round_nearest_even m l ≤ m + 1.
Proof. destruct l as [|[]]; simpl; try lia. destruct (Z.even m); lia. Qed.

Lemma binary_round_aux_in_range s m e l :
  0 ≤ m → Zdigits2 m ≤ 1075 →
  Z.max e (fexp prec emax (Zdigits2 m + e)) ≤ -52 →
  ∀ s', binary_round_aux prec emax s m e l ≠ S754_infinity s'.
Proof.
  intros Hm Hd He s'. unfold binary_round_aux.
  destruct (shr_fexp_bound m e l Hm) as [Hm1 He1].
  destruct (shr_fexp prec emax m e l) as [mrs1 e1]. simpl in Hm1, He1.
  pose proof (round_nearest_even_bound (shr_m mrs1) (loc_of_shr_record mrs1)) as Hr.
  set (mr := round_nearest_even (shr_m mrs1) (loc_of_shr_record mrs1)) in *.
  destruct (shr_fexp_bound mr e1 loc_Exact ltac:(lia)) as [Hm2 He2].
  destruct (shr_fexp prec emax mr e1 loc_Exact) as [mrs2 e2]. simpl in Hm2, He2.
  assert (Hdr : Zdigits2 mr ≤ 1076).
  { pose proof (Zdigits2_mono mr (m + 1) ltac:(lia)).
    pose proof (Zdigits2_succ m Hm). lia. }
  assert (He2' : e2 ≤ 971).
  { rewrite He2, fexp_eq. lia. }
  destruct (shr_m mrs2); [done| |done].
  destruct (Z.leb_spec e2 (emax - prec)) as [|Hgt]; [done|].
  unfold emax, prec in Hgt. lia.
Qed.

Lemma quotient_in_range a b :
  0 ≤ a ≤ b → 0 < b → ∀ s, quotient a b ≠ S754_infinity s.
Proof.
  intros [Ha Hab] Hb s. unfold quotient.
  destruct b as [|mb|mb]; try lia.
  destruct a as [|ma|ma]; try lia; [done|].
  simpl float_of_int. unfold SFdiv.
  destruct (SFdiv_core_binary prec emax (Z.pos ma) 0 (Z.pos mb) 0)
    as [[q e'] l] eqn:Hcore.
  unfold SFdiv_core_binary in Hcore.
  set (d := Zdigits2 (Z.pos ma) + 0 - (Zdigits2 (Z.pos mb) + 0)) in *.
  assert (Hd : d ≤ 0).
  { pose proof (Zdigits2_mono (Z.pos ma) (Z.pos mb) ltac:(lia)). lia. }
  set (e0 := Z.min (fexp prec emax d) (0 - 0)) in *.
  assert (He0 : -1074 ≤ e0 ≤ -53).
  { unfold e0. rewrite fexp_eq. lia. }
  set (m' := match 0 - 0 - e0 with
             | 0 => Z.pos ma
             | Z.pos _ => Z.shiftl (Z.pos ma) (0 - 0 - e0)
             | Z.neg _ => 0
             end) in *.
  assert (Hm' : m' = Z.pos ma * 2 ^ (- e0)).
  { unfold m'. replace (0 - 0 - e0) with (- e0) by lia.
    destruct (- e0) as [|n|n] eqn:Hn; try lia.
    rewrite Z.shiftl_mul_pow2 by lia. done. }
  destruct (Z.div_eucl m' (Z.pos mb)) as [q0 r0] eqn:Hdiv.
  injection Hcore as <- <- <-.
  assert (Hq : q0 = m' / Z.pos mb) by (unfold Z.div; by rewrite Hdiv).
  assert (Hq0 : 0 ≤ q0 ≤ 2 ^ (- e0)).
  { rewrite Hq, Hm'. split.
    - apply Z.div_pos; [|lia]. apply Z.mul_nonneg_nonneg; [lia|].
      apply Z.pow_nonneg; lia.
    - apply Z.div_le_upper_bound; [lia|].
      apply Z.mul_le_mono_nonneg_r; [apply Z.pow_nonneg|]; lia. }
  pose proof (Zdigits2_le q0 (- e0) ltac:(lia) Hq0) as Hdq.
  apply binary_round_aux_in_range; [lia | lia |].
  rewrite fexp_eq. lia.
Qed.

Lemma truediv_part a b :
  0 ≤ a ≤ b → 0 < b → truediv a b = Ok (quotient a b).
Proof.
  intros Hab Hb. unfold truediv.
  rewrite bool_decide_eq_false_2 by lia.
  pose proof (quotient_in_range a b Hab Hb) as Hfin.
  destruct (quotient a b); try done. by destruct (Hfin s).
Qed.

(** ** The classifier against the rules of the specification *)

Lemma mapM_truediv (total : Z) (items : list (str * Z)) :
  0 < total → Forall (fun x => 0 ≤ x.2 ≤ total) items →
  mapM (fun x : str * Z => truediv x.2 total) items
  = Ok ((fun x => quotient x.2 total) <$> items).
Proof.
  intros Htotal. induction 1 as [|x items Hx _ IH]; simpl; [done|].
  rewrite truediv_part by done. simpl. by rewrite IH.
Qed.

Lemma Zsum_nonneg l : Forall (fun g => 0 ≤ g) l → 0 ≤ Zsum l.
Proof. induction 1; simpl; lia. Qed.

Lemma Zsum_bounds l g :
  Forall (fun g => 0 ≤ g) l → g ∈ l → 0 ≤ g ≤ Zsum l.
Proof.
  induction 1 as [|x l Hx Hl IH]; intros Hin; [by apply elem_of_nil in Hin|].
  pose proof (Zsum_nonneg l Hl). simpl.
  apply elem_of_cons in Hin as [->|Hin]; [lia|].
  specialize (IH Hin). lia.
Qed.

Lemma Zsum_zero l :
  Forall (fun g => 0 ≤ g) l → Zsum l = 0 ↔ Forall (fun g => g = 0) l.
Proof.
  induction 1 as [|x l Hx Hl IH]; simpl; [done|].
  pose proof (Zsum_nonneg l Hl). rewrite Forall_cons, <- IH. lia.
Qed.

Lemma Zsum_perm l1 l2 : l1 ≡ₚ l2 → Zsum l1 = Zsum l2.
Proof. induction 1; simpl; lia. Qed.

#[local] Instance descending_trans : Transitive descending.
Proof. unfold descending. intros a b c. lia. Qed.
#[local] Instance descending_total : Total descending.
Proof. unfold descending. intros a b. lia. Qed.
#[local] Instance descending_antisymm : AntiSymm (=) descending.
Proof. unfold descending. intros a b. lia. Qed.

(** The gains of [items] are the gains of the profile in descending
    order. *)
Lemma sorted_items_gains (profile : gmap str Z) :
  (sorted_items profile).*2 = merge_sort descending ((map_to_list profile).*2).
Proof.
  apply (StronglySorted_unique descending).
  - unfold sorted_items.
    eapply StronglySorted_fmap;
      [|apply (sort_by_key_sorted (fun x : str * Z => - x.2))].
    unfold descending. simpl. intros; lia.
  - apply StronglySorted_merge_sort; apply _.
  - unfold sorted_items. by rewrite sort_by_key_perm, merge_sort_Permutation.
Qed.

Lemma percs_shares (profile : gmap str Z) :
  (fun x : str * Z => quotient x.2 (total_gain profile)) <$> sorted_items profile
  = spec_shares profile.
Proof.
  unfold spec_shares. rewrite <- sorted_items_gains.
  rewrite <- list_fmap_compose. done.
Qed.

Lemma spec_shares_length (profile : gmap str Z) :
  length (spec_shares profile) = size profile.
Proof.
  unfold spec_shares.
  by rewrite length_fmap, merge_sort_Permutation, length_fmap, length_map_to_list.
Qed.

Lemma sorted_items_length (profile : gmap str Z) :
  length (sorted_items profile) = size profile.
Proof.
  unfold sorted_items. by rewrite sort_by_key_length, length_map_to_list.
Qed.

Lemma gains_nonneg (profile : gmap str Z) :
  map_Forall (fun _ g => 0 ≤ g) profile →
  Forall (fun g => 0 ≤ g) (map_to_list profile).*2.
Proof.
  intros H%map_Forall_to_list. apply Forall_fmap.
  eapply Forall_impl; [exact H|]. by intros [t g].
Qed.

Lemma all_zero_total (profile : gmap str Z) :
  map_Forall (fun _ g => 0 ≤ g) profile →
  total_gain profile = 0 ↔ all_zero profile.
Proof.
  intros Hnn. unfold total_gain, all_zero.
  rewrite (Zsum_zero _ (gains_nonneg _ Hnn)), map_Forall_to_list, Forall_fmap.
  apply Forall_proper; [|done]. by intros [t g].
Qed.

Lemma first_match_spec_rules shares :
  first_match spec_rules shares =
  if rule_I shares then Some Shape.I
  else if rule_T shares then Some Shape.T
  else if rule_Pi shares then Some Shape.Pi
  else if rule_Comb shares then Some Shape.Comb
  else None.
Proof. reflexivity. Qed.

#[local] Opaque fge fle fbetween fadd f0_90 f0_50 f0_70 f0_30 f0_45 f0_15 f0_25.

Lemma classify_shape_refines (profile : gmap str Z) :
  map_Forall (fun _ g => 0 ≤ g) profile →
  classify_shape profile = Ok (spec_classify profile).
Proof.
  intros Hnn. unfold classify_shape, spec_classify.
  destruct (decide (profile = ∅)) as [->|Hne].
  { rewrite bool_decide_eq_true_2 by done.
    rewrite bool_decide_eq_true_2 by (by left). done. }
  rewrite (bool_decide_eq_false_2 (profile = ∅)) by done.
  destruct (decide (total_gain profile = 0)) as [Hz|Hnz].
  { rewrite bool_decide_eq_true_2 by done.
    rewrite bool_decide_eq_true_2; [done|]. right. by apply all_zero_total. }
  rewrite (bool_decide_eq_false_2 (total_gain profile = 0)) by done.
  rewrite (bool_decide_eq_false_2 (profile = ∅ ∨ all_zero profile))
    by (intros [?|?%all_zero_total]; done).
  pose proof (Zsum_nonneg _ (gains_nonneg _ Hnn)) as Htot.
  fold (total_gain profile) in Htot.
  rewrite mapM_truediv; [|lia|].
  2:{ apply Forall_forall. intros [t g] Hin. simpl.
      unfold total_gain. apply Zsum_bounds; [by apply gains_nonneg|].
      unfold sorted_items in Hin. rewrite sort_by_key_perm in Hin.
      apply list_elem_of_fmap. by exists (t, g). }
  rewrite percs_shares, sorted_items_length, <- spec_shares_length.
  rewrite first_match_spec_rules.
  unfold rule_I, rule_T, rule_Pi, rule_Comb, item.
  assert (Hlen : length (spec_shares profile) ≠ 0%nat).
  { rewrite spec_shares_length. by intros ?%map_size_empty_iff. }
  destruct (spec_shares profile) as [|p0 shares]; [done|]. clear Hlen.
  simpl.
  destruct (fge p0 f0_90); [done|].
  destruct (fbetween f0_50 p0 f0_70 && bool_decide (11 ≤ S (length shares))%nat);
    [done|].
  destruct shares as [|p1 shares]; simpl.
  - by destruct (bool_decide _ && fle p0 f0_30).
  - destruct (fbetween f0_30 p0 f0_45); simpl.
    + destruct (fbetween f0_30 p1 f0_45 && fge (fadd p0 p1) f0_70); [done|].
      by destruct (bool_decide _ && fle p0 f0_30).
    + by destruct (bool_decide _ && fle p0 f0_30).
Qed.

#[local] Transparent fge fle fbetween fadd f0_90 f0_50 f0_70 f0_30 f0_45 f0_15 f0_25.

(** The decimal literals, as binary64 values. *)
Lemma literals_binary64 :
  f0_90 = S754_finite false 8106479329266893 (-53) ∧
  f0_50 = S754_finite false 4503599627370496 (-53) ∧
  f0_70 = S754_finite false 6305039478318694 (-53) ∧
  f0_30 = S754_finite false 5404319552844595 (-54) ∧
  f0_45 = S754_finite false 8106479329266893 (-54) ∧
  f0_15 = S754_finite false 5404319552844595 (-55) ∧
  f0_25 = S754_finite false 4503599627370496 (-54).
Proof. repeat apply conj; vm_compute; reflexivity. Qed.

(** C1. On a profile of gains that are not negative, [classify_shape]
    returns, and returns the first matching rule of the ordered list
    I, T, Pi, Comb evaluated on the descending share vector, whose length
    is the number of tags: I exactly when the top share is at least 0.90;
    else T exactly when the top share is in [0.50, 0.70] and there are at
    least 11 tags; else Pi exactly when there are two tags or more, the top
    two shares are each in [0.30, 0.45] and their sum is at least 0.70;
    else Comb exactly when 3 to 5 of the top 5 shares are in [0.15, 0.25]
    and the top share is at most 0.30; else no shape.  An empty or all-zero
    profile has no shape.  Gains 90 and 10 (top share 0.90) give I; gains 89
    and 11 give no shape; a top share of 0.50 gives T with 11 tags and no
    shape with 10.  Shares, thresholds, sums and comparisons are the
    binary64 ones of the code. *)
Theorem classify_shape_first_rule :
  (∀ profile : gmap str Z,
     map_Forall (fun _ g => 0 ≤ g) profile →
     let shares := spec_shares profile in
     let result := classify_shape profile in
     result = Ok (spec_classify profile) ∧
     length shares = size profile ∧
     (profile = ∅ ∨ all_zero profile → result = Ok None) ∧
     (profile ≠ ∅ → ¬ all_zero profile →
      result = Ok (first_match spec_rules shares) ∧
      (result = Ok (Some Shape.I) ↔ rule_I shares = true) ∧
      (result = Ok (Some Shape.T) ↔
         rule_I shares = false ∧ rule_T shares = true) ∧
      (result = Ok (Some Shape.Pi) ↔
         rule_I shares = false ∧ rule_T shares = false ∧
         rule_Pi shares = true) ∧
      (result = Ok (Some Shape.Comb) ↔
         rule_I shares = false ∧ rule_T shares = false ∧
         rule_Pi shares = false ∧ rule_Comb shares = true) ∧
      (result = Ok None ↔
         rule_I shares = false ∧ rule_T shares = false ∧
         rule_Pi shares = false ∧ rule_Comb shares = false))) ∧
  (spec_shares profile_090 = [f0_90; quotient 10 100] ∧
   classify_shape profile_090 = Ok (Some Shape.I)) ∧
  (spec_shares profile_089 = [quotient 89 100; quotient 11 100] ∧
   classify_shape profile_089 = Ok None) ∧
  (size profile_050_11_tags = 11%nat ∧
   spec_shares profile_050_11_tags !! 0%nat = Some f0_50 ∧
   classify_shape profile_050_11_tags = Ok (Some Shape.T)) ∧
  (size profile_050_10_tags = 10%nat ∧
   spec_shares profile_050_10_tags !! 0%nat = Some f0_50 ∧
   classify_shape profile_050_10_tags = Ok None).
Proof.
  split; [|repeat apply conj; vm_compute; reflexivity].
  intros profile Hnn shares result.
  assert (Hres : result = Ok (spec_classify profile))
    by (by apply classify_shape_refines).
  split; [done|]. split; [apply spec_shares_length|]. split.
  - intros Hz. rewrite Hres. unfold spec_classify.
    by rewrite bool_decide_eq_true_2.
  - intros Hne Hnz.
    assert (Hfm : result = Ok (first_match spec_rules shares)).
    { rewrite Hres. unfold spec_classify.
      rewrite bool_decide_eq_false_2 by (intros [?|?]; done). done. }
    split; [done|]. rewrite Hfm, first_match_spec_rules.
    destruct (rule_I shares), (rule_T shares), (rule_Pi shares),
      (rule_Comb shares); repeat split; intros; intuition congruence.
Qed.

Lemma classify_shape_first_rule_witness :
  classify_shape profile_050_11_tags
  = Ok (first_match spec_rules (spec_shares profile_050_11_tags)).
Proof.
  refine (proj1 (proj2 (proj2 (proj2
    (proj1 classify_shape_first_rule profile_050_11_tags _))) _ _)).
  - apply (bool_decide_unpack _). vm_compute. reflexivity.
  - apply (bool_decide_unpack _). vm_compute. reflexivity.
  - apply (bool_decide_unpack _). vm_compute. reflexivity.
Defined.

Example classify_shape_pi :
  classify_shape (profile_of [("python", 35); ("java", 35); ("c", 30)])
  = Ok (Some Shape.Pi).
Proof. vm_compute. reflexivity. Qed.

Example classify_shape_comb :
  classify_shape (profile_of [("a", 20); ("b", 20); ("c", 20); ("d", 20);
                              ("e", 20)])
  = Ok (Some Shape.Comb).
Proof. vm_compute. reflexivity. Qed.

Example classify_shape_zero :
  classify_shape (profile_of [("python", 0); ("java", 0)]) = Ok None.
Proof. vm_compute. reflexivity. Qed.

(** ** From the profiles to the shapes *)

Lemma build_gains_nonneg TOP_TAGS min_reputation users posts user_rep user_tags :
  build_tag_reputation TOP_TAGS min_reputation users posts
    = Ok (user_rep, user_tags) →
  ∀ uid cnt, user_tags !! uid = Some cnt → map_Forall (fun _ g => 0 ≤ g) cnt.
Proof.
  intros Hbuild uid cnt Hcnt t g Hg. unfold build_tag_reputation in Hbuild.
  apply bind_Ok in Hbuild as (rep_map & _ & [= -> <-]).
  by destruct (proj2 (posts_pass_inv TOP_TAGS user_rep posts uid cnt Hcnt) t g Hg).
Qed.

Lemma shapes_pass_spec entries : ∀ user_shape0 user_shape,
  Forall (fun e : Z * gmap str Z => map_Forall (fun _ g => 0 ≤ g) e.2) entries →
  NoDup entries.*1 →
  shapes_pass user_shape0 entries = Ok user_shape →
  ∀ uid, user_shape !! uid =
         match list_to_map (M := gmap Z (gmap str Z)) entries !! uid with
         | Some cnt => match spec_classify cnt with
                       | Some sh => Some sh
                       | None => user_shape0 !! uid
                       end
         | None => user_shape0 !! uid
         end.
Proof.
  induction entries as [|[uid0 cnt0] entries IH];
    intros us0 us Hnn Hnd Hrun uid; simpl in Hrun.
  - injection Hrun as <-. simpl. by rewrite lookup_empty.
  - apply Forall_cons in Hnn as [Hnn0 Hnn]. simpl in Hnn0.
    apply NoDup_cons in Hnd as [Hfresh Hnd].
    unfold shape_step in Hrun. simpl in Hrun.
    rewrite (classify_shape_refines cnt0 Hnn0) in Hrun. simpl in Hrun.
    rewrite (IH _ _ Hnn Hnd Hrun uid). simpl.
    destruct (decide (uid = uid0)) as [->|Hne].
    + rewrite lookup_insert_eq.
      rewrite (not_elem_of_list_to_map_1 _ _ Hfresh).
      destruct (spec_classify cnt0); [by rewrite lookup_insert_eq | done].
    + rewrite lookup_insert_ne by done.
      destruct (list_to_map entries !! uid) as [cnt|]; [destruct (spec_classify cnt)|];
        try done; destruct (spec_classify cnt0); by rewrite ?lookup_insert_ne.
Qed.

Lemma shapes_pass_total entries : ∀ user_shape0,
  Forall (fun e : Z * gmap str Z => map_Forall (fun _ g => 0 ≤ g) e.2) entries →
  ∃ user_shape, shapes_pass user_shape0 entries = Ok user_shape.
Proof.
  induction entries as [|[uid0 cnt0] entries IH]; intros us0 Hnn; simpl; [eauto|].
  apply Forall_cons in Hnn as [Hnn0 Hnn]. unfold shape_step. simpl.
  rewrite (classify_shape_refines cnt0 Hnn0). simpl. by apply IH.
Qed.

(** On the profiles of the second pass every user is classified, once, and
    [user_shape] holds the users that have a shape. *)
Lemma classify_users_spec (user_tags : gmap Z (gmap str Z)) :
  (∀ uid cnt, user_tags !! uid = Some cnt → map_Forall (fun _ g => 0 ≤ g) cnt) →
  ∃ user_shape,
    classify_users user_tags = Ok user_shape ∧
    ∀ uid, user_shape !! uid = user_tags !! uid ≫= spec_classify.
Proof.
  intros Hnn.
  assert (Hall : Forall (fun e : Z * gmap str Z =>
                           map_Forall (fun _ g => 0 ≤ g) e.2)
                        (map_to_list user_tags)).
  { apply Forall_forall. intros [uid cnt] Hin%elem_of_map_to_list. eauto. }
  destruct (shapes_pass_total _ ∅ Hall) as [user_shape Hrun].
  exists user_shape. split; [done|]. intros uid.
  rewrite (shapes_pass_spec _ _ _ Hall (NoDup_fst_map_to_list _) Hrun uid).
  rewrite list_to_map_to_list, lookup_empty.
  destruct (user_tags !! uid) as [cnt|]; simpl; [|done].
  by destruct (spec_classify cnt).
Qed.

(** ** The answer features *)

Section AnswerFacts.
Variable unicode_alnum : N → bool.

Lemma bucket_of_Long words : bucket_of words = Long ↔ (400 < words)%nat.
Proof.
  unfold bucket_of, WORD_THRESHOLD_LONG, WORD_THRESHOLD_SHORT.
  repeat case_bool_decide; split; (done || lia).
Qed.

Lemma bucket_of_Summarized words :
  bucket_of words = Summarized ↔ (words < 150)%nat.
Proof.
  unfold bucket_of, WORD_THRESHOLD_LONG, WORD_THRESHOLD_SHORT.
  repeat case_bool_decide; split; (done || lia).
Qed.

Lemma bucket_of_Medium words :
  bucket_of words = Medium ↔ (150 ≤ words ≤ 400)%nat.
Proof.
  unfold bucket_of, WORD_THRESHOLD_LONG, WORD_THRESHOLD_SHORT.
  repeat case_bool_decide; split; (done || lia).
Qed.

Lemma answer_features_Some body :
  body ≠ [] →
  ∃ f, answer_features unicode_alnum body = Some f ∧
       word_count f = count_words unicode_alnum false body ∧
       length_bucket f = bucket_of (word_count f) ∧
       has_ref f = existsb is_external (findall_links body).
Proof. destruct body; [done|]. intros _. eexists. by split. Qed.

Lemma answer_features_inv body f :
  answer_features unicode_alnum body = Some f →
  body ≠ [] ∧
  word_count f = count_words unicode_alnum false body ∧
  length_bucket f = bucket_of (word_count f) ∧
  has_ref f = existsb is_external (findall_links body).
Proof. destruct body; [done|]. intros [= <-]. by split. Qed.

(** The table is the rows of the posts, each computed from its own post. *)
Lemma answers_pass_rows user_shape posts : ∀ answer_df rows,
  answers_pass unicode_alnum user_shape answer_df posts = Ok rows →
  ∃ steps, Forall2 (fun p o => answer_step unicode_alnum user_shape p = Ok o)
                   posts steps ∧
           rows = answer_df ++ omap id steps.
Proof.
  induction posts as [|p posts IH]; intros answer_df rows Hrun; simpl in Hrun.
  - injection Hrun as <-. exists []. split; [constructor|].
    by rewrite app_nil_r.
  - apply bind_Ok in Hrun as (o & Hstep & Hrun).
    apply IH in Hrun as (steps & Hall & ->).
    exists (o :: steps). split; [by constructor|].
    destruct o as [r|]; simpl; [|done]. by rewrite <- app_assoc.
Qed.

Lemma parse_answers_keeps user_shape p r before after rows :
  answer_step unicode_alnum user_shape p = Ok (Some r) →
  parse_answers unicode_alnum user_shape (before ++ p :: after) = Ok rows →
  r ∈ rows.
Proof.
  intros Hstep Hrun.
  apply answers_pass_rows in Hrun as (steps & Hall & ->). simpl.
  apply Forall2_app_inv_l in Hall as (s1 & s2 & _ & Hall & ->).
  apply Forall2_cons_inv_l in Hall as (o & s3 & Ho & _ & ->).
  rewrite Hstep in Ho. injection Ho as <-.
  rewrite omap_app. simpl. set_solver.
Qed.
End AnswerFacts.

(** A link counts exactly when it starts with neither of the two prefixes
    of the site. *)
Lemma has_ref_links unicode_alnum body f :
  answer_features unicode_alnum body = Some f →
  has_ref f = true ↔
  ∃ link, link ∈ findall_links body ∧
          startswith (py "https://stackoverflow.com") link = false ∧
          startswith (py "//stackoverflow.com") link = false.
Proof.
  intros (_ & _ & _ & ->)%answer_features_inv.
  rewrite existsb_exists. unfold is_external. split.
  - intros (link & Hin%list_elem_of_In & H). exists link. split; [done|].
    apply andb_true_iff in H as [H1 H2].
    by apply negb_true_iff in H1, H2.
  - intros (link & Hin & H1 & H2). exists link.
    split; [by apply list_elem_of_In|]. by rewrite H1, H2.
Qed.

(** C4 (what the code does at the failing inputs). A body whose only
    hyperlink is an absolute [http://] reference to the site's own domain
    has [has_ref] true, and so has a body whose only hyperlink is relative;
    the [https://] and scheme-relative references to the site have it
    false. *)
Theorem has_ref_own_host_links (unicode_alnum : N → bool) :
  has_ref <$> answer_features unicode_alnum
                (link_body "http://stackoverflow.com/questions/11227809")
    = Some true ∧
  has_ref <$> answer_features unicode_alnum (link_body "/questions/11227809")
    = Some true ∧
  has_ref <$> answer_features unicode_alnum
                (link_body "https://stackoverflow.com/questions/11227809")
    = Some false ∧
  has_ref <$> answer_features unicode_alnum
                (link_body "//stackoverflow.com/questions/11227809")
    = Some false.
Proof. repeat apply conj; vm_compute; reflexivity. Qed.

(** C5 (what the code does at the failing input). The extractor returns
    the empty result for a missing or empty body, and the loop over the
    posts still appends a row for the answer: the row of its identifier,
    without feature, is in the table. *)
Theorem answer_without_body_kept (unicode_alnum : N → bool)
    (user_shape : gmap Z Shape.t) (p : PostRow) (uid aid : Z) (sh : Shape.t) :
  default 0 (PostTypeId p) = 2 →
  OwnerUserId p = Some uid →
  user_shape !! uid = Some sh →
  Id p = Some aid →
  Body p = None ∨ Body p = Some [] →
  answer_features unicode_alnum (default [] (Body p)) = None ∧
  ∃ r, answer_step unicode_alnum user_shape p = Ok (Some r) ∧
       feats r = None ∧ answer_id r = aid ∧
       ∀ before after rows,
         parse_answers unicode_alnum user_shape (before ++ p :: after) = Ok rows →
         r ∈ rows.
Proof.
  intros Htype Howner Hshape Hid Hbody.
  assert (Hempty : default [] (Body p) = []) by (by destruct Hbody as [->| ->]).
  split; [by rewrite Hempty|].
  assert (Hstep : ∃ r, answer_step unicode_alnum user_shape p = Ok (Some r) ∧
                       feats r = None ∧ answer_id r = aid).
  { unfold answer_step. rewrite Htype, Howner, Hshape, Hid, Hempty. simpl.
    eexists. split; [reflexivity|]. by split. }
  destruct Hstep as (r & Hstep & Hf & Ha). exists r. repeat split; try done.
  intros before after rows. by apply parse_answers_keeps.
Qed.

Lemma answer_without_body_kept_witness :
  ∃ r, parse_answers ascii_only sample_shapes [answer_without_body] = Ok [r] ∧
       feats r = None ∧ answer_id r = 7.
Proof.
  destruct (answer_without_body_kept ascii_only sample_shapes
              answer_without_body 1 7 Shape.I eq_refl eq_refl eq_refl eq_refl
              (or_introl eq_refl)) as (_ & r & Hstep & Hf & Ha & _).
  exists r. split; [|by split].
  unfold parse_answers. simpl. by rewrite Hstep.
Defined.

(** A run of 500 word characters is one word. *)
Example one_run_of_500_characters (unicode_alnum : N → bool) :
  (fun f => (word_count f, length_bucket f))
    <$> answer_features unicode_alnum (replicate 500 97%N)
  = Some (1%nat, Summarized).
Proof. vm_compute. reflexivity. Qed.

(** C6. A body that is not empty has features; its word count is the number
    of maximal runs of word characters, and its bucket is [Long] exactly
    above 400 words, [Summarized] (the short bucket) exactly below 150 and
    [Medium] otherwise, so at 150 and at 400 words; 500 words of one run
    each give [Long]. *)
Theorem length_bucket_thresholds (unicode_alnum : N → bool) :
  (∀ body, body ≠ [] →
     ∃ f, answer_features unicode_alnum body = Some f ∧
          word_count f = count_words unicode_alnum false body ∧
          (length_bucket f = Long ↔ (400 < word_count f)%nat) ∧
          (length_bucket f = Summarized ↔ (word_count f < 150)%nat) ∧
          (length_bucket f = Medium ↔ (150 ≤ word_count f ≤ 400)%nat)) ∧
  (∀ body f, answer_features unicode_alnum body = Some f →
     word_count f = 150%nat ∨ word_count f = 400%nat →
     length_bucket f = Medium) ∧
  (λ f, (word_count f, length_bucket f))
    <$> answer_features unicode_alnum (words_body 150) = Some (150%nat, Medium) ∧
  (λ f, (word_count f, length_bucket f))
    <$> answer_features unicode_alnum (words_body 400) = Some (400%nat, Medium) ∧
  (λ f, (word_count f, length_bucket f))
    <$> answer_features unicode_alnum (words_body 500) = Some (500%nat, Long).
Proof.
  split; [|split; [|split; [|split]]].
  - intros body Hne.
    destruct (answer_features_Some unicode_alnum body Hne) as (f & Hf & Hw & Hb & _).
    exists f. rewrite Hb.
    split; [done|]. split; [done|].
    split; [apply bucket_of_Long|].
    split; [apply bucket_of_Summarized | apply bucket_of_Medium].
  - intros body f (_ & _ & Hb & _)%answer_features_inv Hw.
    rewrite Hb. apply bucket_of_Medium. lia.
  - vm_compute. reflexivity.
  - vm_compute. reflexivity.
  - vm_compute. reflexivity.
Qed.

Lemma length_bucket_thresholds_witness :
  ∃ f, answer_features ascii_only (words_body 401) = Some f ∧
       length_bucket f = Long.
Proof.
  destruct (proj1 (length_bucket_thresholds ascii_only) (words_body 401))
    as (f & Hf & Hw & HL & _); [by vm_compute|].
  exists f. split; [done|]. apply HL. rewrite Hw. vm_compute. lia.
Defined.

(** ** The preference label *)

(** C7. The label of an answer is true exactly when it has a positive
    number of upvotes or is accepted; the column of a table with rows holds
    that label for each row; no upvote and accepted gives true, no positive
    upvote and not accepted gives false. *)
Theorem preferred_label (answers : list AnswerRow) :
  (∀ r, preferred r = true ↔ 0 < upvotes r ∨ accepted r = true) ∧
  (answers ≠ [] →
   ∃ column, preferred_column answers = Ok column ∧
             length column = length answers ∧
             ∀ i r, answers !! i = Some r → column !! i = Some (preferred r)) ∧
  (∀ r, upvotes r = 0 → accepted r = true → preferred r = true) ∧
  (∀ r, upvotes r ≤ 0 → accepted r = false → preferred r = false).
Proof.
  assert (Hiff : ∀ r, preferred r = true ↔ 0 < upvotes r ∨ accepted r = true).
  { intros r. unfold preferred.
    rewrite orb_true_iff, bool_decide_eq_true. tauto. }
  split; [done|]. split; [|split].
  - intros Hne. exists (preferred <$> answers).
    split; [by destruct answers|]. split; [by rewrite length_fmap|].
    intros i r Hi. by rewrite list_lookup_fmap, Hi.
  - intros r _ Hacc. apply Hiff. by right.
  - intros r Hup Hacc. apply not_true_is_false. intros [H|H]%Hiff; [lia|congruence].
Qed.

Lemma preferred_label_witness :
  preferred_column [sample_row Shape.I 0 true; sample_row Shape.T (-1) false]
  = Ok [true; false].
Proof.
  destruct (proj1 (proj2 (preferred_label
              [sample_row Shape.I 0 true; sample_row Shape.T (-1) false])))
    as (column & Hcol & Hlen & Hrows); [done|].
  rewrite Hcol. f_equal.
  pose proof (Hrows 0%nat _ eq_refl) as H0.
  pose proof (Hrows 1%nat _ eq_refl) as H1.
  destruct column as [|a [|b [|]]]; try discriminate.
  by injection H0 as ->; injection H1 as ->.
Defined.

(** ** The accepted flag *)

(** C10, as amended. The row of an answer is accepted exactly when the
    [AcceptedAnswerId] of its own post, 0 when absent, is its own [Id]:
    without the attribute, exactly when its [Id] is 0, so never for an
    identifier other than 0.  The row is computed from the answer's own
    post and is in the table whatever the other posts are. *)
Theorem accepted_from_own_row (unicode_alnum : N → bool)
    (user_shape : gmap Z Shape.t) (p : PostRow) (r : AnswerRow) :
  answer_step unicode_alnum user_shape p = Ok (Some r) →
  (∃ aid, Id p = Some aid ∧ answer_id r = aid ∧
     (accepted r = true ↔ default 0 (AcceptedAnswerId p) = aid) ∧
     (AcceptedAnswerId p = None → (accepted r = true ↔ aid = 0)) ∧
     (AcceptedAnswerId p = None → aid ≠ 0 → accepted r = false)) ∧
  (∀ before after rows,
     parse_answers unicode_alnum user_shape (before ++ p :: after) = Ok rows →
     r ∈ rows).
Proof.
  intros Hstep. split; [|intros before after rows; by apply parse_answers_keeps].
  unfold answer_step in Hstep.
  case_bool_decide; [discriminate|].
  destruct (OwnerUserId p) as [uid|]; [|discriminate].
  destruct (user_shape !! uid) as [sh|]; [|discriminate].
  destruct (Id p) as [aid|]; [|discriminate].
  simpl in Hstep. injection Hstep as <-. exists aid. simpl.
  split; [done|]. split; [done|].
  rewrite bool_decide_eq_true. split; [done|]. split.
  - intros ->. simpl. split; intros; lia.
  - intros -> Hne. simpl. apply bool_decide_eq_false. lia.
Qed.

Lemma accepted_from_own_row_witness :
  ∃ r, answer_step ascii_only sample_shapes answer_without_body = Ok (Some r) ∧
       accepted r = false.
Proof.
  eexists. split; [reflexivity|].
  destruct (accepted_from_own_row ascii_only sample_shapes answer_without_body
              _ eq_refl) as [(aid & Hid & _ & _ & _ & Hno) _].
  injection Hid as <-. by apply Hno.
Defined.

(** C10, as stated, fails: an answer without [AcceptedAnswerId] whose [Id]
    is 0 is marked accepted. *)
Lemma accepted_without_attribute_counterexample :
  AcceptedAnswerId answer_of_id_zero = None ∧
  ∃ r, parse_answers ascii_only sample_shapes [answer_of_id_zero] = Ok [r] ∧
       accepted r = true.
Proof. split; [reflexivity|]. eexists. split; reflexivity. Qed.

(** ** One regression per shape *)

Lemma mask_sum_segment (answers : list AnswerRow) (s : Shape.t) :
  mask_sum (mask_of answers s) = segment_size s answers.
Proof.
  unfold mask_sum, mask_of, segment_size.
  induction answers as [|r answers IH]; [done|].
  rewrite fmap_cons, !filter_cons.
  destruct (decide (shape r = s)) as [Hs|Hs].
  - rewrite (bool_decide_eq_true_2 _ Hs). rewrite decide_True by done.
    simpl. by rewrite IH.
  - rewrite (bool_decide_eq_false_2 _ Hs). by rewrite decide_False by done.
Qed.

Lemma segment_size_pos (answers : list AnswerRow) (s : Shape.t) :
  (0 < segment_size s answers)%nat ↔ s ∈ shape <$> answers.
Proof.
  unfold segment_size. rewrite list_elem_of_fmap. split.
  - intros Hpos.
    destruct (filter (fun r => shape r = s) answers) as [|r l] eqn:Hf;
      [simpl in Hpos; lia|].
    assert (Hr : r ∈ filter (fun r => shape r = s) answers) by (rewrite Hf; left).
    apply list_elem_of_filter in Hr as [Hs Hin]. by exists r.
  - intros (r & -> & Hin).
    assert (Hr : r ∈ filter (fun r' => shape r' = shape r) answers)
      by (by apply list_elem_of_filter).
    destruct (filter _ answers); [by apply elem_of_nil in Hr | simpl; lia].
Qed.

Lemma categories_elem (answers : list AnswerRow) (s : Shape.t) :
  s ∈ categories answers ↔ s ∈ shape <$> answers.
Proof.
  unfold categories. rewrite list_elem_of_filter.
  split; [tauto|]. intros H. split; [done|]. destruct s; repeat constructor.
Qed.

Section RegressionFacts.
Context {Xrow coef : Type}.
Variable fit : list Xrow → list Z → result (list coef * coef).
Variable round3 : coef → coef.

Lemma regression_loop_keys answers cols X y shapes : ∀ results0 results,
  regression_loop fit round3 answers cols X y shapes results0 = Ok results →
  ∀ s, is_Some (results !! s) ↔
       is_Some (results0 !! s) ∨
       (s ∈ shapes ∧ (MIN_SEGMENT_SIZE ≤ segment_size s answers)%nat).
Proof.
  induction shapes as [|s0 shapes IH]; intros results0 results Hrun s;
    simpl in Hrun.
  - injection Hrun as <-. rewrite elem_of_nil. tauto.
  - rewrite mask_sum_segment in Hrun. case_bool_decide as Hsmall.
    + rewrite (IH _ _ Hrun s). rewrite elem_of_cons.
      split; [tauto|]. intros [H|[[->|H] Hge]]; [tauto|lia|tauto].
    + apply bind_Ok in Hrun as (fitted & _ & Hrun).
      rewrite (IH _ _ Hrun s). rewrite elem_of_cons.
      destruct (decide (s = s0)) as [->|Hne].
      * rewrite lookup_insert_eq. split; [|eauto].
        intros _. right. split; [by left | lia].
      * rewrite lookup_insert_ne by done.
        split; [tauto|]. intros [H|[[->|H] Hge]]; tauto.
Qed.

Lemma regression_loop_total answers cols X y shapes :
  (∀ X_s y_s, ∃ fitted, fit X_s y_s = Ok fitted) →
  ∀ results0, ∃ results,
    regression_loop fit round3 answers cols X y shapes results0 = Ok results.
Proof.
  intros Hfit. induction shapes as [|s0 shapes IH]; intros results0; simpl;
    [eauto|].
  case_bool_decide; [apply IH|].
  destruct (Hfit (select (mask_of answers s0) X) (select (mask_of answers s0) y))
    as [fitted ->].
  simpl. apply IH.
Qed.

(** C9. When the loop over the shapes returns, its result has an entry for
    a shape exactly when the table has at least 100 answers of that
    shape: none for a shape of 99 answers, one for a shape of 100; and it
    returns, without an error for the shapes left out, whenever the solver
    does. *)
Theorem segment_omission (answers : list AnswerRow) (cols : list str)
    (X : list Xrow) (y : list Z) :
  (∀ results,
     regression_results fit round3 answers cols X y = Ok results →
     ∀ s, is_Some (results !! s) ↔ (100 ≤ segment_size s answers)%nat) ∧
  ((∀ X_s y_s, ∃ fitted, fit X_s y_s = Ok fitted) →
   ∃ results, regression_results fit round3 answers cols X y = Ok results) ∧
  (∀ results s,
     regression_results fit round3 answers cols X y = Ok results →
     segment_size s answers = 99%nat → results !! s = None) ∧
  (∀ results s,
     regression_results fit round3 answers cols X y = Ok results →
     segment_size s answers = 100%nat → is_Some (results !! s)).
Proof.
  assert (Hkeys : ∀ results,
    regression_results fit round3 answers cols X y = Ok results →
    ∀ s, is_Some (results !! s) ↔ (100 ≤ segment_size s answers)%nat).
  { intros results Hrun s. unfold regression_results in Hrun.
    rewrite (regression_loop_keys _ _ _ _ _ _ _ Hrun s).
    rewrite lookup_empty, categories_elem, <- segment_size_pos.
    unfold MIN_SEGMENT_SIZE. split.
    - intros [[? [=]]|[_ H]]. done.
    - intros H. right. split; [lia | done]. }
  split; [done|]. split; [|split].
  - intros Hfit. by apply regression_loop_total.
  - intros results s Hrun H99.
    apply eq_None_not_Some. rewrite (Hkeys results Hrun s). lia.
  - intros results s Hrun H100. apply (Hkeys results Hrun s). lia.
Qed.
End RegressionFacts.

Lemma segment_omission_witness :
  ∃ results,
    regression_results sample_fit id sample_table [] [] [] = Ok results ∧
    is_Some (results !! Shape.I) ∧ results !! Shape.T = None.
Proof.
  destruct (segment_omission sample_fit id sample_table [] [] [])
    as (Hkeys & Htotal & H99 & H100).
  destruct Htotal as [results Hrun]; [intros; by eexists|].
  exists results. split; [done|]. split.
  - apply (H100 results Shape.I Hrun). by vm_compute.
  - apply (H99 results Shape.T Hrun). by vm_compute.
Defined.

(** * Further properties *)

(** ** The allowlist *)

(** X1. Every name of the allowlist is the [TagName] of a row of the tag
    stream; the allowlist names no tag twice when the stream does not; and
    when [n] is at least the number of rows it holds every name of the
    stream. *)
Theorem load_top_tags_from_stream (n : nat) (rows : list TagRow) :
  (∀ name, name ∈ load_top_tags_n n rows →
           ∃ row, row ∈ rows ∧ TagName row = name) ∧
  (NoDup (TagName <$> rows) → NoDup (load_top_tags_n n rows)) ∧
  ((length rows ≤ n)%nat → load_top_tags_n n rows ≡ₚ TagName <$> rows).
Proof.
  assert (Hnames : (sort_by_key (fun x : option str * Z => - x.2)
                      (tag_pairs rows)).*1 ≡ₚ TagName <$> rows).
  { rewrite sort_by_key_perm. unfold tag_pairs.
    by rewrite <- list_fmap_compose. }
  assert (Hsub : load_top_tags_n n rows `sublist_of`
                 (sort_by_key (fun x : option str * Z => - x.2)
                    (tag_pairs rows)).*1).
  { unfold load_top_tags_n. apply fmap_sublist, sublist_take. }
  split; [|split].
  - intros name Hin.
    eapply elem_of_sublist in Hin; [|exact Hsub].
    rewrite Hnames in Hin. apply list_elem_of_fmap in Hin as (row & -> & Hrow).
    eauto.
  - intros Hnd. eapply sublist_NoDup; [|exact Hsub]. by rewrite Hnames.
  - intros Hlen. unfold load_top_tags_n.
    rewrite take_ge by (rewrite sort_by_key_length, tag_pairs_length; lia).
    exact Hnames.
Qed.

Lemma load_top_tags_from_stream_witness :
  load_top_tags_n 5
    [ {| TagName := Some (py "c"); Count := Some 5 |};
      {| TagName := Some (py "java"); Count := Some 9 |} ]
  ≡ₚ [Some (py "c"); Some (py "java")].
Proof.
  apply (proj2 (proj2 (load_top_tags_from_stream 5
    [ {| TagName := Some (py "c"); Count := Some 5 |};
      {| TagName := Some (py "java"); Count := Some 9 |} ]))).
  simpl. lia.
Defined.

(** X2. Asking for more tags only appends to the allowlist: the list for
    [n] is a prefix of the list for any larger number. *)
Theorem load_top_tags_prefix (n m : nat) (rows : list TagRow) :
  (n ≤ m)%nat → load_top_tags_n n rows `prefix_of` load_top_tags_n m rows.
Proof.
  intros Hnm. unfold load_top_tags_n.
  set (ranked := sort_by_key _ _).
  exists ((take (m - n) (drop n ranked)).*1).
  rewrite <- fmap_app. f_equal.
  replace m with (n + (m - n))%nat at 1 by lia.
  by rewrite take_take_drop.
Qed.

Lemma load_top_tags_prefix_witness :
  load_top_tags_n 1
    [ {| TagName := Some (py "c"); Count := Some 5 |};
      {| TagName := Some (py "java"); Count := Some 9 |} ]
  `prefix_of`
  load_top_tags_n 2
    [ {| TagName := Some (py "c"); Count := Some 5 |};
      {| TagName := Some (py "java"); Count := Some 9 |} ].
Proof. apply load_top_tags_prefix. lia. Defined.

(** ** The reputation index *)

Lemma users_pass_lookup min_reputation users : ∀ user_rep0 user_rep uid,
  users_pass min_reputation user_rep0 users = Ok user_rep →
  user_rep !! uid =
  match indexed_reputation min_reputation uid users with
  | Some rep => Some rep
  | None => user_rep0 !! uid
  end.
Proof.
  unfold indexed_reputation.
  induction users as [|u users IH]; intros m0 m uid Hrun; simpl in Hrun.
  - by injection Hrun as <-.
  - apply bind_Ok in Hrun as (m1 & Hstep & Hrun).
    rewrite (IH _ _ uid Hrun). clear IH Hrun.
    unfold user_step in Hstep.
    destruct (user_Id u) as [i|] eqn:Hi; [|discriminate].
    destruct (Reputation u) as [r|] eqn:Hr; [|discriminate].
    simpl in Hstep. injection Hstep as <-.
    assert (Hc : omap (qualifying min_reputation uid) (u :: users)
                 = match qualifying min_reputation uid u with
                   | Some y => y :: omap (qualifying min_reputation uid) users
                   | None => omap (qualifying min_reputation uid) users
                   end) by reflexivity.
    assert (Hq : qualifying min_reputation uid u
                 = if bool_decide (i = uid ∧ min_reputation ≤ r)
                   then Some r else None)
      by (unfold qualifying; by rewrite Hi, Hr).
    rewrite Hc, Hq. clear Hc Hq.
    destruct (decide (i = uid ∧ min_reputation ≤ r)) as [[-> Hge]|Hno].
    + rewrite (bool_decide_eq_true_2 (uid = uid ∧ _)) by done.
      rewrite (bool_decide_eq_true_2 (min_reputation ≤ r)) by done.
      rewrite last_cons.
      destruct (last (omap _ users)); [done|]. by rewrite lookup_insert_eq.
    + rewrite (bool_decide_eq_false_2 (i = uid ∧ _)) by done.
      destruct (last (omap _ users)); [done|].
      case_bool_decide; [|done].
      rewrite lookup_insert_ne; [done|]. intros ->. by apply Hno.
Qed.

(** X3. When the first pass returns, the index holds for a user the
    reputation of the last user row with that [Id] whose reputation reaches
    the floor, and does not hold the user when there is no such row: rows
    below the floor neither add nor remove a user, and a later qualifying
    row replaces an earlier one. *)
Theorem user_index_last_qualifying (TOP_TAGS : list (option str))
    (min_reputation : Z) (users : list UserRow) (posts : list PostRow)
    (user_rep : gmap Z Z) (user_tags : gmap Z (gmap str Z)) :
  build_tag_reputation TOP_TAGS min_reputation users posts
    = Ok (user_rep, user_tags) →
  (∀ uid, user_rep !! uid = indexed_reputation min_reputation uid users) ∧
  (∀ u uid rep, u ∈ users → user_Id u = Some uid → Reputation u = Some rep →
     min_reputation ≤ rep → is_Some (user_rep !! uid)).
Proof.
  intros Hbuild. unfold build_tag_reputation in Hbuild.
  apply bind_Ok in Hbuild as (m & Hrun & [= -> <-]).
  assert (Hlook : ∀ uid, user_rep !! uid
                         = indexed_reputation min_reputation uid users).
  { intros uid. rewrite (users_pass_lookup _ _ _ _ uid Hrun), lookup_empty.
    by destruct (indexed_reputation _ _ _). }
  split; [done|].
  intros u uid rep Hin Hid Hrep Hge. rewrite Hlook. unfold indexed_reputation.
  assert (Hq : rep ∈ omap (qualifying min_reputation uid) users).
  { apply list_elem_of_omap. exists u. split; [done|].
    unfold qualifying. rewrite Hid, Hrep. by rewrite bool_decide_eq_true_2. }
  destruct (omap _ users) as [|x l] using rev_ind;
    [by apply elem_of_nil in Hq|].
  rewrite last_snoc. eauto.
Qed.

Lemma user_index_last_qualifying_witness :
  ({[1 := 150]} : gmap Z Z) !! 2 = indexed_reputation 100 2 sample_users.
Proof.
  exact (proj1 (user_index_last_qualifying sample_allowlist MIN_REPUTATION
                  sample_users sample_posts {[1 := 150]} _ eq_refl) 2).
Defined.

Lemma users_pass_raise min_reputation users : ∀ user_rep0 e,
  users_pass min_reputation user_rep0 users = Raise e ↔
  e = TypeError ∧
  Exists (fun u => user_Id u = None ∨ Reputation u = None) users.
Proof.
  induction users as [|u users IH]; intros m0 e; simpl.
  - split; [discriminate|]. intros [_ H]. by apply Exists_nil in H.
  - rewrite Exists_cons. unfold user_step.
    destruct (user_Id u) as [i|]; simpl.
    + destruct (Reputation u) as [r|]; simpl.
      * rewrite IH. split; [tauto|]. intros [-> [[[=]|[=]]|H]]. by split.
      * split; [intros [= <-]; eauto | by intros [-> _]].
    + split; [intros [= <-]; eauto | by intros [-> _]].
Qed.

(** X4. The build raises exactly when a user row lacks its [Id] or its
    [Reputation], and the exception is then a [TypeError]: whatever the
    posts and the allowlist are, they raise nothing. *)
Theorem build_raises_on_incomplete_user (TOP_TAGS : list (option str))
    (min_reputation : Z) (users : list UserRow) (posts : list PostRow)
    (e : exn) :
  build_tag_reputation TOP_TAGS min_reputation users posts = Raise e ↔
  e = TypeError ∧
  Exists (fun u => user_Id u = None ∨ Reputation u = None) users.
Proof.
  rewrite <- (users_pass_raise min_reputation users ∅ e).
  unfold build_tag_reputation.
  destruct (users_pass min_reputation ∅ users) as [m|e']; simpl.
  - split; discriminate.
  - split; intros [= ->]; reflexivity.
Qed.

(** ** The counters *)

Lemma gain_of_lookup_eq (ut ut' : gmap Z (gmap str Z)) uid t :
  ut' !! uid = ut !! uid → gain_of ut' uid t = gain_of ut uid t.
Proof. unfold gain_of, counter_of. by intros ->. Qed.

Lemma occurrences_nil t : occurrences t [] = 0.
Proof. reflexivity. Qed.

Lemma Zsum_cons x l : Zsum (x :: l) = x + Zsum l.
Proof. reflexivity. Qed.

Lemma post_step_gain TOP_TAGS user_rep ut p uid t :
  gain_of (post_step TOP_TAGS user_rep ut p) uid t
  = gain_of ut uid t + contribution TOP_TAGS user_rep uid t p.
Proof.
  unfold post_step, contribution.
  destruct (OwnerUserId p) as [owner|]; [|lia].
  destruct (Tags p) as [tags|].
  2:{ destruct (user_rep !! owner); lia. }
  destruct (decide (owner = uid)) as [->|Hne].
  - destruct (user_rep !! uid) as [rep|] eqn:Hrep.
    + rewrite bool_decide_eq_true_2 by eauto.
      destruct tags as [|c tags];
        [change (surviving_tags TOP_TAGS []) with (@nil str);
         rewrite occurrences_nil; simpl; lia|].
      destruct (surviving_tags TOP_TAGS (c :: tags)) as [|t0 ts] eqn:Hs;
        [rewrite occurrences_nil; simpl; lia|].
      apply foldl_add_gain_gain.
    + rewrite bool_decide_eq_false_2 by (intros [_ [? [=]]]). lia.
  - rewrite bool_decide_eq_false_2 by (by intros [? _]).
    rewrite Z.add_0_r. apply gain_of_lookup_eq.
    destruct (user_rep !! owner); [|done].
    destruct tags as [|c tags]; [done|].
    destruct (surviving_tags TOP_TAGS (c :: tags)); [done|].
    by apply foldl_add_gain_lookup_ne.
Qed.

Lemma foldl_post_step_gain TOP_TAGS user_rep posts : ∀ ut uid t,
  gain_of (foldl (post_step TOP_TAGS user_rep) ut posts) uid t
  = gain_of ut uid t + Zsum (contribution TOP_TAGS user_rep uid t <$> posts).
Proof.
  induction posts as [|p posts IH]; intros ut uid t; [simpl; lia|].
  rewrite fmap_cons, Zsum_cons. cbn [foldl].
  rewrite IH, post_step_gain. lia.
Qed.

(** X5. The gain that the profile holds for a user and a tag is the sum,
    over the posts owned by that user when the user is in the index, of the
    post's gain [max (score * 10) 0] times the number of times the tag
    occurs among the post's allow-listed tags; it is 0 for a user or a tag
    the profile does not hold. *)
Theorem profile_gain_is_sum (TOP_TAGS : list (option str)) (user_rep : gmap Z Z)
    (posts : list PostRow) (uid : Z) (t : str) :
  gain_of (posts_pass TOP_TAGS user_rep posts) uid t
  = Zsum (contribution TOP_TAGS user_rep uid t <$> posts) ∧
  (posts_pass TOP_TAGS user_rep posts !! uid = None →
   Zsum (contribution TOP_TAGS user_rep uid t <$> posts) = 0).
Proof.
  assert (H : gain_of (posts_pass TOP_TAGS user_rep posts) uid t
              = Zsum (contribution TOP_TAGS user_rep uid t <$> posts)).
  { unfold posts_pass. rewrite foldl_post_step_gain.
    unfold gain_of, counter_of. rewrite lookup_empty. simpl.
    rewrite lookup_empty. simpl. lia. }
  split; [done|]. intros Hnone. rewrite <- H.
  unfold gain_of, counter_of. rewrite Hnone. simpl. by rewrite lookup_empty.
Qed.

Lemma counter_of_add_gain_ne (uid uid' g : Z) (t : str)
    (ut : gmap Z (gmap str Z)) :
  uid' ≠ uid → counter_of (add_gain uid g ut t) uid' = counter_of ut uid'.
Proof. intros. unfold counter_of. by rewrite add_gain_lookup_ne. Qed.

Lemma gain_of_add_gain_ne (uid uid' g : Z) (t t' : str)
    (ut : gmap Z (gmap str Z)) :
  uid' ≠ uid → gain_of (add_gain uid g ut t) uid' t' = gain_of ut uid' t'.
Proof. intros. unfold gain_of. by rewrite counter_of_add_gain_ne. Qed.

Lemma add_gain_comm (uid1 g1 : Z) (t1 : str) (uid2 g2 : Z) (t2 : str)
    (ut : gmap Z (gmap str Z)) :
  add_gain uid1 g1 (add_gain uid2 g2 ut t2) t1
  = add_gain uid2 g2 (add_gain uid1 g1 ut t1) t2.
Proof.
  apply map_eq. intros uid.
  destruct (decide (uid1 = uid2)) as [->|Hne].
  - destruct (decide (uid = uid2)) as [->|Hne'].
    + rewrite !add_gain_lookup. f_equal. apply map_eq. intros t.
      rewrite !add_gain_gain.
      unfold counter_of. rewrite !add_gain_lookup. simpl.
      destruct (decide (t = t1)) as [->|?], (decide (t1 = t2)) as [->|?];
        try destruct (decide (t = t2)) as [->|?];
        repeat (rewrite lookup_insert_eq || rewrite lookup_insert_ne by done);
        repeat case_decide; try congruence; try done; f_equal; lia.
    + by rewrite !add_gain_lookup_ne by done.
  - destruct (decide (uid = uid1)) as [->|H1].
    + rewrite add_gain_lookup, add_gain_lookup_ne, add_gain_lookup by done.
      by rewrite counter_of_add_gain_ne, gain_of_add_gain_ne by done.
    + rewrite (add_gain_lookup_ne uid1 uid) by done.
      destruct (decide (uid = uid2)) as [->|H2].
      * rewrite !add_gain_lookup.
        by rewrite counter_of_add_gain_ne, gain_of_add_gain_ne by done.
      * by rewrite !add_gain_lookup_ne by done.
Qed.

Lemma foldl_add_gain_comm1 (uid1 g1 : Z) (t1 : str) (uid2 g2 : Z)
    (tags2 : list str) : ∀ ut : gmap Z (gmap str Z),
  add_gain uid1 g1 (foldl (add_gain uid2 g2) ut tags2) t1
  = foldl (add_gain uid2 g2) (add_gain uid1 g1 ut t1) tags2.
Proof.
  induction tags2 as [|t2 tags2 IH]; intros ut; simpl; [done|].
  by rewrite IH, add_gain_comm.
Qed.

Lemma foldl_add_gain_comm (uid1 g1 : Z) (tags1 : list str) (uid2 g2 : Z)
    (tags2 : list str) : ∀ ut : gmap Z (gmap str Z),
  foldl (add_gain uid1 g1) (foldl (add_gain uid2 g2) ut tags2) tags1
  = foldl (add_gain uid2 g2) (foldl (add_gain uid1 g1) ut tags1) tags2.
Proof.
  induction tags1 as [|t1 tags1 IH]; intros ut; simpl; [done|].
  by rewrite foldl_add_gain_comm1, IH.
Qed.

(** The loop body, as the additions it makes. *)
Lemma post_step_additions TOP_TAGS user_rep p :
  ∃ uid g tags, ∀ ut,
    post_step TOP_TAGS user_rep ut p = foldl (add_gain uid g) ut tags.
Proof.
  unfold post_step.
  destruct (OwnerUserId p) as [uid|]; [|by exists 0, 0, []].
  destruct (user_rep !! uid); [|by exists 0, 0, []].
  destruct (Tags p) as [[|c tags]|]; [by exists 0, 0, []| |by exists 0, 0, []].
  exists uid, (rep_gain_of p), (surviving_tags TOP_TAGS (c :: tags)).
  intros ut. by destruct (surviving_tags TOP_TAGS (c :: tags)).
Qed.

Lemma post_step_comm TOP_TAGS user_rep ut p q :
  post_step TOP_TAGS user_rep (post_step TOP_TAGS user_rep ut p) q
  = post_step TOP_TAGS user_rep (post_step TOP_TAGS user_rep ut q) p.
Proof.
  destruct (post_step_additions TOP_TAGS user_rep p) as (u1 & g1 & l1 & Hp).
  destruct (post_step_additions TOP_TAGS user_rep q) as (u2 & g2 & l2 & Hq).
  rewrite !Hp, !Hq. apply foldl_add_gain_comm.
Qed.

(** X6. The profile does not depend on the order of the posts: two post
    streams that hold the same rows, in any order, give the same
    counters. *)
Theorem profile_order_independent (TOP_TAGS : list (option str))
    (user_rep : gmap Z Z) (posts1 posts2 : list PostRow) :
  posts1 ≡ₚ posts2 →
  posts_pass TOP_TAGS user_rep posts1 = posts_pass TOP_TAGS user_rep posts2.
Proof.
  intros Hperm. unfold posts_pass.
  generalize (∅ : gmap Z (gmap str Z)).
  induction Hperm as [|p l1 l2 _ IH|p q l|l1 l2 l3 _ IH1 _ IH2]; intros ut; simpl.
  - done.
  - apply IH.
  - by rewrite post_step_comm.
  - by rewrite IH1, IH2.
Qed.

Lemma profile_order_independent_witness :
  posts_pass sample_allowlist {[1 := 150]} sample_posts
  = posts_pass sample_allowlist {[1 := 150]} (reverse sample_posts).
Proof.
  apply profile_order_independent. by rewrite reverse_Permutation.
Defined.

(** What the second pass keeps besides [profile_inv]: no empty counter. *)
Lemma add_gain_nonempty (uid g : Z) (t : str) (ut : gmap Z (gmap str Z)) :
  (∀ uid' cnt, ut !! uid' = Some cnt → cnt ≠ ∅) →
  ∀ uid' cnt, add_gain uid g ut t !! uid' = Some cnt → cnt ≠ ∅.
Proof.
  intros Hinv uid' cnt Hcnt. destruct (decide (uid' = uid)) as [->|Hne].
  - rewrite add_gain_lookup in Hcnt. injection Hcnt as <-.
    apply insert_non_empty.
  - rewrite add_gain_lookup_ne in Hcnt by done. eauto.
Qed.

Lemma posts_pass_nonempty TOP_TAGS user_rep posts :
  ∀ uid cnt, posts_pass TOP_TAGS user_rep posts !! uid = Some cnt → cnt ≠ ∅.
Proof.
  unfold posts_pass.
  assert (H0 : ∀ uid cnt, (∅ : gmap Z (gmap str Z)) !! uid = Some cnt → cnt ≠ ∅)
    by (intros uid cnt; by rewrite lookup_empty).
  revert H0. generalize (∅ : gmap Z (gmap str Z)).
  induction posts as [|p posts IH]; intros ut Hinv; simpl; [done|].
  apply IH. clear IH.
  destruct (post_step_additions TOP_TAGS user_rep p) as (u & g & l & ->).
  revert ut Hinv. induction l as [|t l IHl]; intros ut Hinv; simpl; [done|].
  apply IHl. by apply add_gain_nonempty.
Qed.

Lemma foldl_add_gain_counter_other (uid g : Z) (tags : list str) (t : str) :
  t ∉ tags → ∀ ut : gmap Z (gmap str Z),
  counter_of (foldl (add_gain uid g) ut tags) uid !! t = counter_of ut uid !! t.
Proof.
  induction tags as [|t' tags IH]; intros Hnin ut; simpl; [done|].
  apply not_elem_of_cons in Hnin as [Hne Hnin].
  rewrite IH by done.
  unfold counter_of at 1. rewrite add_gain_lookup. simpl.
  by apply lookup_insert_ne.
Qed.

(** X7. Every counter of the profile holds at least one tag, holds no
    negative gain, and belongs to a user who owns a post carrying one of
    its tags; so the empty-counter test of [classify_shape] never fires on
    a profile of the build. *)
Theorem profile_counters_populated (TOP_TAGS : list (option str))
    (min_reputation : Z) (users : list UserRow) (posts : list PostRow)
    (user_rep : gmap Z Z) (user_tags : gmap Z (gmap str Z)) :
  build_tag_reputation TOP_TAGS min_reputation users posts
    = Ok (user_rep, user_tags) →
  ∀ uid cnt, user_tags !! uid = Some cnt →
    cnt ≠ ∅ ∧
    map_Forall (fun _ g => 0 ≤ g) cnt ∧
    ∀ t, is_Some (cnt !! t) →
      ∃ p tags, p ∈ posts ∧ OwnerUserId p = Some uid ∧ Tags p = Some tags ∧
                t ∈ surviving_tags TOP_TAGS tags.
Proof.
  intros Hbuild uid cnt Hcnt.
  split; [|split].
  - unfold build_tag_reputation in Hbuild.
    apply bind_Ok in Hbuild as (m & _ & [= -> <-]).
    by eapply posts_pass_nonempty.
  - by eapply build_gains_nonneg.
  - unfold build_tag_reputation in Hbuild.
    apply bind_Ok in Hbuild as (m & _ & [= -> <-]).
    revert cnt Hcnt.
    induction posts as [|p posts IH] using rev_ind; intros cnt Hcnt t Ht.
    { unfold posts_pass in Hcnt. simpl in Hcnt. by rewrite lookup_empty in Hcnt. }
    rewrite posts_pass_snoc in Hcnt.
    set (ut := posts_pass TOP_TAGS user_rep posts) in *.
    assert (Hold : is_Some (counter_of ut uid !! t) →
                   ∃ p0 tags, p0 ∈ posts ++ [p] ∧ OwnerUserId p0 = Some uid ∧
                              Tags p0 = Some tags ∧
                              t ∈ surviving_tags TOP_TAGS tags).
    { unfold counter_of. destruct (ut !! uid) as [c0|] eqn:Hc0; simpl.
      - intros Hin. destruct (IH c0 eq_refl t Hin) as (p0 & tags & ? & ? & ? & ?).
        exists p0, tags. repeat split; try done. apply elem_of_app. by left.
      - rewrite lookup_empty. by intros [? [=]]. }
    unfold post_step in Hcnt.
    destruct (OwnerUserId p) as [owner|] eqn:Ho;
      [|apply Hold; unfold counter_of; by rewrite Hcnt].
    destruct (user_rep !! owner);
      [|apply Hold; unfold counter_of; by rewrite Hcnt].
    destruct (Tags p) as [[|c tags]|] eqn:Htags;
      try (apply Hold; unfold counter_of; by rewrite Hcnt).
    destruct (surviving_tags TOP_TAGS (c :: tags)) as [|t0 ts] eqn:Hs;
      [apply Hold; unfold counter_of; by rewrite Hcnt|].
    destruct (decide (owner = uid)) as [->|Hne].
    + destruct (decide (t ∈ t0 :: ts)) as [Hin|Hnin].
      * exists p, (c :: tags). rewrite Hs. repeat split; try done.
        apply elem_of_app. right. by apply list_elem_of_singleton.
      * apply Hold.
        pose proof (foldl_add_gain_counter_other uid (rep_gain_of p)
                      (t0 :: ts) t Hnin ut) as Hsame.
        rewrite <- Hsame. unfold counter_of. by rewrite Hcnt.
    + apply Hold. unfold counter_of.
      rewrite foldl_add_gain_lookup_ne in Hcnt by done. by rewrite Hcnt.
Qed.

Lemma profile_counters_populated_witness :
  ∃ cnt, posts_pass sample_allowlist {[1 := 150]} sample_posts !! 1 = Some cnt ∧
         cnt ≠ ∅.
Proof.
  destruct (posts_pass sample_allowlist {[1 := 150]} sample_posts !! 1)
    as [cnt|] eqn:Hcnt; [|by vm_compute in Hcnt].
  exists cnt. split; [done|].
  exact (proj1 (profile_counters_populated sample_allowlist MIN_REPUTATION
                  sample_users sample_posts {[1 := 150]} _ eq_refl 1 cnt Hcnt)).
Defined.

(** ** The shapes of the users *)

Lemma counts_pass_spec entries : ∀ (acc : gmap Z Shape.t * gmap Shape.t Z),
  Forall (fun e : Z * gmap str Z => map_Forall (fun _ g => 0 ≤ g) e.2) entries →
  NoDup entries.*1 →
  (∀ e, e ∈ entries → acc.1 !! e.1 = None) →
  (∀ sh k, acc.2 !! sh = Some k → 0 < k) →
  ∃ user_shape shape_counts,
    counts_pass acc entries = Ok (user_shape, shape_counts) ∧
    shapes_pass acc.1 entries = Ok user_shape ∧
    (∀ sh k, shape_counts !! sh = Some k → 0 < k) ∧
    ∀ sh,
      default 0 (shape_counts !! sh) - default 0 (acc.2 !! sh)
      = Z.of_nat (size (users_of_shape sh user_shape))
        - Z.of_nat (size (users_of_shape sh acc.1)).
Proof.
  induction entries as [|[uid cnt] entries IH];
    intros [us counts] Hnn Hnd Hfresh Hpos.
  { exists us, counts. split; [done|]. split; [done|]. split; [done|].
    intros sh. simpl. lia. }
  apply Forall_cons in Hnn as [Hnn0 Hnn]. simpl in Hnn0.
  apply NoDup_cons in Hnd as [Hnew Hnd].
  assert (Huid : us !! uid = None) by (apply (Hfresh (uid, cnt)); left).
  simpl. unfold count_step, shape_step. simpl.
  rewrite (classify_shape_refines cnt Hnn0). simpl.
  destruct (spec_classify cnt) as [sh0|].
  - destruct (IH (<[uid := sh0]> us, <[sh0 := default 0 (counts !! sh0) + 1]> counts)
                Hnn Hnd) as (us' & counts' & Hrun & Hrun' & Hpos' & Hcount).
    { intros [uid' cnt'] Hin. simpl. rewrite lookup_insert_ne.
      - apply (Hfresh (uid', cnt')). by right.
      - intros ->. apply Hnew. apply list_elem_of_fmap. by exists (uid', cnt'). }
    { intros sh k. simpl. destruct (decide (sh0 = sh)) as [->|Hne].
      - rewrite lookup_insert_eq. intros [= <-].
        destruct (counts !! sh) as [k0|] eqn:Hk0; simpl; [|lia].
        specialize (Hpos sh k0 Hk0). lia.
      - rewrite lookup_insert_ne by done. apply Hpos. }
    exists us', counts'. split; [done|]. split; [done|]. split; [done|].
    intros sh. specialize (Hcount sh). simpl in Hcount.
    unfold users_of_shape in *. simpl.
    destruct (decide (sh0 = sh)) as [->|Hne].
    + rewrite lookup_insert_eq in Hcount. simpl in Hcount.
      rewrite map_filter_insert_True in Hcount by done.
      rewrite map_size_insert_None in Hcount
        by (apply map_lookup_filter_None; by left).
      lia.
    + rewrite lookup_insert_ne in Hcount by done.
      rewrite map_filter_insert_False in Hcount by done.
      rewrite delete_id in Hcount by done. done.
  - destruct (IH (us, counts) Hnn Hnd) as (us' & counts' & Hrun & Hrest).
    { intros e Hin. apply Hfresh. by right. }
    { done. }
    by exists us', counts'.
Qed.

(** X8. On a profile whose gains are not negative, as the build gives, the
    loop over the users returns: [user_shape] holds exactly the users whose
    counter has a shape, with that shape, and [shape_counts] holds for each
    shape the number of users of [user_shape] with that shape, with no
    entry for a shape that no user has. *)
Theorem shape_distribution_counts (user_tags : gmap Z (gmap str Z)) :
  (∀ uid cnt, user_tags !! uid = Some cnt → map_Forall (fun _ g => 0 ≤ g) cnt) →
  ∃ user_shape shape_counts,
    shape_distribution user_tags = Ok (user_shape, shape_counts) ∧
    classify_users user_tags = Ok user_shape ∧
    (∀ uid, user_shape !! uid = user_tags !! uid ≫= spec_classify) ∧
    ∀ sh, default 0 (shape_counts !! sh)
          = Z.of_nat (size (users_of_shape sh user_shape)) ∧
          (shape_counts !! sh = None ↔ users_of_shape sh user_shape = ∅).
Proof.
  intros Hnn.
  assert (Hall : Forall (fun e : Z * gmap str Z =>
                           map_Forall (fun _ g => 0 ≤ g) e.2)
                        (map_to_list user_tags)).
  { apply Forall_forall. intros [uid cnt] Hin%elem_of_map_to_list. eauto. }
  destruct (counts_pass_spec (map_to_list user_tags) (∅, ∅) Hall
              (NoDup_fst_map_to_list _))
    as (us & counts & Hrun & Hrun' & Hpos & Hcount).
  { intros e _. apply lookup_empty. }
  { intros sh k. simpl. by rewrite lookup_empty. }
  simpl in Hrun'.
  exists us, counts. split; [done|]. split; [done|]. split.
  - intros uid.
    rewrite (shapes_pass_spec _ _ _ Hall (NoDup_fst_map_to_list _) Hrun' uid).
    rewrite list_to_map_to_list, lookup_empty.
    destruct (user_tags !! uid) as [cnt|]; simpl; [|done].
    by destruct (spec_classify cnt).
  - intros sh. specialize (Hcount sh). simpl in Hcount.
    unfold users_of_shape in *.
    rewrite lookup_empty, map_filter_empty, map_size_empty in Hcount.
    simpl in Hcount.
    split; [lia|]. rewrite <- map_size_empty_iff. split.
    + intros Hnone. rewrite Hnone in Hcount. simpl in Hcount. lia.
    + intros Hsize. rewrite Hsize in Hcount.
      destruct (counts !! sh) as [k|] eqn:Hk; [|done].
      specialize (Hpos sh k Hk). simpl in Hcount. lia.
Qed.

Lemma shape_distribution_counts_witness :
  ∃ user_shape shape_counts,
    shape_distribution {[1 := profile_090; 2 := profile_089]}
    = Ok (user_shape, shape_counts) ∧
    shape_counts !! Shape.I = Some 1.
Proof.
  destruct (shape_distribution_counts {[1 := profile_090; 2 := profile_089]})
    as (us & counts & Hrun & _).
  { intros uid cnt Hcnt.
    destruct (decide (uid = 1)) as [->|?];
      [|destruct (decide (uid = 2)) as [->|?]].
    - rewrite lookup_insert_eq in Hcnt. injection Hcnt as <-.
      apply (bool_decide_unpack _). vm_compute. reflexivity.
    - rewrite lookup_insert_ne, lookup_singleton_eq in Hcnt by done.
      injection Hcnt as <-.
      apply (bool_decide_unpack _). vm_compute. reflexivity.
    - rewrite lookup_insert_ne, lookup_singleton_ne in Hcnt by done. done. }
  exists us, counts. split; [done|].
  vm_compute in Hrun. injection Hrun as <- <-. reflexivity.
Defined.

(** ** More on the classifier *)

Lemma spec_classify_gains (p1 p2 : gmap str Z) :
  (map_to_list p1).*2 ≡ₚ (map_to_list p2).*2 →
  spec_classify p1 = spec_classify p2.
Proof.
  intros Hperm.
  assert (Hempty : p1 = ∅ ↔ p2 = ∅).
  { rewrite <- !map_to_list_empty_iff.
    split; intros He; rewrite He in Hperm; simpl in Hperm.
    - apply Permutation_nil_l in Hperm. symmetry in Hperm.
      by apply fmap_nil_inv in Hperm.
    - apply Permutation_nil_r in Hperm. by apply fmap_nil_inv in Hperm. }
  assert (Hzero : all_zero p1 ↔ all_zero p2).
  { unfold all_zero. rewrite !map_Forall_to_list.
    assert (Hf : ∀ p : gmap str Z,
              Forall (uncurry (fun (_ : str) g => g = 0)) (map_to_list p)
              ↔ Forall (fun g => g = 0) (map_to_list p).*2).
    { intros p. rewrite Forall_fmap. apply Forall_proper; [|done]. by intros [t g]. }
    rewrite !Hf. by rewrite Hperm. }
  assert (Hshares : spec_shares p1 = spec_shares p2).
  { unfold spec_shares. rewrite (Zsum_perm _ _ Hperm). f_equal.
    apply (StronglySorted_unique descending).
    - apply StronglySorted_merge_sort; apply _.
    - apply StronglySorted_merge_sort; apply _.
    - by rewrite !merge_sort_Permutation. }
  unfold spec_classify. rewrite Hshares.
  destruct (decide (p1 = ∅ ∨ all_zero p1)) as [H1|H1].
  - rewrite !bool_decide_eq_true_2; [done|tauto|done].
  - rewrite !bool_decide_eq_false_2; [done|tauto|done].
Qed.

(** X9. The shape depends on the gains only, not on the names of the tags
    or on which tag has which gain: two profiles of gains that are not
    negative and that hold the same gains, each as many times, have the
    same shape. *)
Theorem classify_shape_ignores_names (p1 p2 : gmap str Z) :
  map_Forall (fun _ g => 0 ≤ g) p1 →
  map_Forall (fun _ g => 0 ≤ g) p2 →
  (map_to_list p1).*2 ≡ₚ (map_to_list p2).*2 →
  classify_shape p1 = classify_shape p2.
Proof.
  intros H1 H2 Hperm.
  rewrite (classify_shape_refines p1 H1), (classify_shape_refines p2 H2).
  f_equal. by apply spec_classify_gains.
Qed.

Lemma classify_shape_ignores_names_witness :
  classify_shape (profile_of [("python", 35); ("java", 35); ("c", 30)])
  = classify_shape (profile_of [("go", 30); ("rust", 35); ("sql", 35)]).
Proof.
  apply classify_shape_ignores_names.
  - apply (bool_decide_unpack _). vm_compute. reflexivity.
  - apply (bool_decide_unpack _). vm_compute. reflexivity.
  - apply (bool_decide_unpack _). vm_compute. reflexivity.
Defined.

(** A gain divided by itself is the float 1.0. *)
Lemma quotient_self (g : Z) :
  0 < g → quotient g g = S754_finite false 4503599627370496 (-52).
Proof.
  intros Hg. destruct g as [|m|m]; try lia. unfold quotient. simpl float_of_int.
  unfold SFdiv.
  destruct (SFdiv_core_binary prec emax (Z.pos m) 0 (Z.pos m) 0)
    as [[q e'] l] eqn:Hcore.
  unfold SFdiv_core_binary in Hcore.
  replace (Zdigits2 (Z.pos m) + 0 - (Zdigits2 (Z.pos m) + 0)) with 0 in Hcore
    by lia.
  change (Z.min (fexp prec emax 0) (0 - 0)) with (-53) in Hcore.
  change (0 - 0 - -53) with 53 in Hcore. cbv beta iota zeta in Hcore.
  rewrite Z.shiftl_mul_pow2 in Hcore by lia.
  assert (Hdiv : Z.div_eucl (Z.pos m * 2 ^ 53) (Z.pos m) = (2 ^ 53, 0)).
  { pose proof (Z.div_eucl_eq (Z.pos m * 2 ^ 53) (Z.pos m) ltac:(lia)) as Heq.
    pose proof (Z.mod_pos_bound (Z.pos m * 2 ^ 53) (Z.pos m) ltac:(lia)) as Hb.
    unfold Z.modulo in Hb.
    destruct (Z.div_eucl (Z.pos m * 2 ^ 53) (Z.pos m)) as [q0 r0].
    assert (Hr : r0 = 0).
    { assert (Hm : (Z.pos m * 2 ^ 53) mod Z.pos m = 0)
        by (rewrite Z.mul_comm; apply Z.mod_mul; lia).
      rewrite Z.mul_comm in Hm. 
      assert (Z.pos m * 2 ^ 53 = Z.pos m * q0 + r0) by exact Heq.
      assert (r0 mod Z.pos m = 0).
      { replace r0 with (Z.pos m * 2 ^ 53 - Z.pos m * q0) by lia.
        replace (Z.pos m * 2 ^ 53 - Z.pos m * q0)
          with ((2 ^ 53 - q0) * Z.pos m) by lia.
        apply Z.mod_mul. lia. }
      rewrite Z.mod_small in H0 by lia. done. }
    subst r0. f_equal. nia. }
  rewrite Hdiv in Hcore. injection Hcore as <- <- <-.
  assert (Hloc : new_location (Z.pos m) 0 = loc_Exact).
  { unfold new_location. by destruct (Z.even (Z.pos m)). }
  rewrite Hloc. vm_compute. reflexivity.
Qed.

(** X10. A profile with a single tag, of positive gain, is I-shaped: its
    only share is the float 1.0, whatever the gain. *)
Theorem single_tag_is_I (t : str) (g : Z) :
  0 < g → classify_shape {[t := g]} = Ok (Some Shape.I).
Proof.
  intros Hg.
  rewrite classify_shape_refines
    by (apply map_Forall_singleton; lia).
  f_equal. unfold spec_classify.
  rewrite bool_decide_eq_false_2.
  2:{ intros [He|Hz].
      - by apply map_non_empty_singleton in He.
      - apply map_Forall_singleton in Hz. lia. }
  unfold spec_shares. rewrite map_to_list_singleton.
  change (merge_sort descending [(t, g)].*2) with [g].
  change (Zsum [(t, g)].*2) with (g + 0). rewrite Z.add_0_r.
  rewrite list_fmap_singleton, quotient_self by done.
  vm_compute. reflexivity.
Qed.

Lemma single_tag_is_I_witness :
  classify_shape {[py "python" := 7]} = Ok (Some Shape.I).
Proof. apply single_tag_is_I. lia. Defined.

(** X11. A shape needs enough tags and some gain: on a profile of gains
    that are not negative, T is returned only with 11 tags or more, Pi only
    with 2 or more, Comb only with 3 or more, and any shape only for a
    profile with a gain that is not zero. *)
Theorem shape_needs_tags (profile : gmap str Z) (sh : Shape.t) :
  map_Forall (fun _ g => 0 ≤ g) profile →
  classify_shape profile = Ok (Some sh) →
  (sh = Shape.T → (11 ≤ size profile)%nat) ∧
  (sh = Shape.Pi → (2 ≤ size profile)%nat) ∧
  (sh = Shape.Comb → (3 ≤ size profile)%nat) ∧
  (1 ≤ size profile)%nat ∧
  ∃ t g, profile !! t = Some g ∧ 0 < g.
Proof.
  intros Hnn Hres. rewrite (classify_shape_refines profile Hnn) in Hres.
  injection Hres as Hres. unfold spec_classify in Hres.
  case_bool_decide as Hdeg; [discriminate|].
  rewrite first_match_spec_rules in Hres.
  rewrite <- spec_shares_length.
  assert (Hne : profile ≠ ∅) by tauto.
  assert (Hgain : ∃ t g, profile !! t = Some g ∧ 0 < g).
  { destruct (decide (map_Forall (fun _ g => g = 0) profile)) as [Hz|Hz];
      [tauto|].
    apply map_not_Forall in Hz; [|apply _].
    destruct Hz as (t & g & Hg & Hnz). exists t, g. split; [done|].
    specialize (Hnn t g Hg). simpl in Hnn. lia. }
  assert (Hlen : (1 ≤ length (spec_shares profile))%nat).
  { rewrite spec_shares_length.
    destruct (size profile) eqn:Hs; [|lia].
    by apply map_size_empty_iff in Hs. }
  destruct (rule_I (spec_shares profile)) eqn:HI;
    [injection Hres as <-; repeat split; (done || lia)|].
  destruct (rule_T (spec_shares profile)) eqn:HT.
  { injection Hres as <-. repeat split; try done; try lia. intros _.
    unfold rule_T in HT. destruct (spec_shares profile !! 0%nat); [|done].
    apply andb_true_iff in HT as [_ HT]. by apply bool_decide_eq_true in HT. }
  destruct (rule_Pi (spec_shares profile)) eqn:HPi.
  { injection Hres as <-. repeat split; try done; try lia. intros _.
    unfold rule_Pi in HPi.
    destruct (spec_shares profile) as [|p0 [|p1 l]]; try done.
    simpl. lia. }
  destruct (rule_Comb (spec_shares profile)) eqn:HC; [|discriminate].
  injection Hres as <-. repeat split; try done; try lia. intros _.
  unfold rule_Comb in HC. destruct (spec_shares profile !! 0%nat); [|done].
  apply andb_true_iff in HC as [HC _]. apply bool_decide_eq_true in HC.
  pose proof (length_filter
    (fun p : float => fbetween f0_15 p f0_25 = true)
    (take 5 (spec_shares profile))) as Hf.
  rewrite length_take in Hf. lia.
Qed.

Lemma shape_needs_tags_witness :
  (11 ≤ size profile_050_11_tags)%nat.
Proof.
  refine (proj1 (shape_needs_tags profile_050_11_tags Shape.T _ _) eq_refl).
  - apply (bool_decide_unpack _). vm_compute. reflexivity.
  - vm_compute. reflexivity.
Defined.

(** ** The patterns *)

Lemma startswith_app (pre rest : str) : startswith pre (pre ++ rest) = true.
Proof.
  induction pre as [|a pre IH]; simpl; [done|]. by rewrite decide_True.
Qed.

Lemma startswith_inv (pre s : str) :
  startswith pre s = true → s = pre ++ drop (length pre) s.
Proof.
  revert s. induction pre as [|a pre IH]; intros s H; simpl in *; [done|].
  destruct s as [|b s]; [done|]. case_decide; [|done]. subst b.
  simpl. f_equal. by apply IH.
Qed.

Lemma span_until_spec (c : N) (s : str) :
  s = (span_until c s).1 ++ (span_until c s).2 ∧
  (c ∉ (span_until c s).1) ∧
  ((span_until c s).2 = [] ∨ ∃ rest, (span_until c s).2 = c :: rest).
Proof.
  induction s as [|a s (IH1 & IH2 & IH3)]; simpl.
  - split; [done|]. split; [apply not_elem_of_nil | by left].
  - case_decide as Ha; simpl.
    + subst a. split; [done|]. split; [apply not_elem_of_nil | right; eauto].
    + destruct (span_until c s) as [run rest]. simpl in *.
      split; [by f_equal|]. split; [|done].
      apply not_elem_of_cons. split; [congruence | done].
Qed.

Lemma span_until_app (c : N) (g rest : str) :
  c ∉ g → span_until c (g ++ c :: rest) = (g, c :: rest).
Proof.
  induction g as [|a g IH]; intros Hc; simpl.
  - by rewrite decide_True.
  - apply not_elem_of_cons in Hc as [Hne Hc].
    rewrite decide_False by done. by rewrite IH.
Qed.

Lemma match_group_spec (open : str) (c : N) (s g : str) (len : nat) :
  match_group open c s = Some (g, len) →
  g ≠ [] ∧ (c ∉ g) ∧ len = (length open + length g + 1)%nat ∧
  ∃ rest, s = open ++ g ++ c :: rest.
Proof.
  unfold match_group. destruct (startswith open s) eqn:Hpre; [|done].
  apply startswith_inv in Hpre.
  destruct (span_until_spec c (drop (length open) s)) as (Hs & Hc & Hrest).
  destruct (span_until c (drop (length open) s)) as [run rest]. simpl in *.
  destruct run as [|a run]; [done|]. destruct rest as [|b rest]; [done|].
  intros [= <- <-]. destruct Hrest as [[=]|(rest' & [= -> ->])].
  split; [done|]. split; [done|]. split; [done|].
  exists rest'. by rewrite Hpre at 1; rewrite Hs.
Qed.

Lemma match_group_app (open : str) (c : N) (g rest : str) :
  g ≠ [] → c ∉ g →
  match_group open c (open ++ g ++ c :: rest)
  = Some (g, (length open + length g + 1)%nat).
Proof.
  intros Hg Hc. unfold match_group.
  rewrite startswith_app, drop_app_length, span_until_app by done.
  by destruct g.
Qed.

Lemma findall_group_from_skip (open : str) (c : N) (l rest : str) :
  findall_group_from open c (length l) (l ++ rest)
  = findall_group_from open c 0 rest.
Proof.
  induction l as [|a l IH]; simpl; [|done].
  by destruct rest.
Qed.

Lemma findall_group_match (open : str) (c : N) (g rest : str) :
  open ≠ [] → g ≠ [] → c ∉ g →
  findall_group open c (open ++ g ++ c :: rest)
  = g :: findall_group open c rest.
Proof.
  intros Ho Hg Hc. unfold findall_group.
  pose proof (match_group_app open c g rest Hg Hc) as Hm.
  destruct open as [|a open]; [done|]. clear Ho.
  change (findall_group_from (a :: open) c 0 ((a :: open) ++ g ++ c :: rest))
    with (match match_group (a :: open) c ((a :: open) ++ g ++ c :: rest) with
          | Some (g0, len) =>
              g0 :: findall_group_from (a :: open) c (pred len)
                      (open ++ g ++ c :: rest)
          | None => findall_group_from (a :: open) c 0 (open ++ g ++ c :: rest)
          end).
  rewrite Hm. f_equal.
  replace (open ++ g ++ c :: rest) with ((open ++ g ++ [c]) ++ rest)
    by (by rewrite <- !app_assoc).
  replace (pred (length (a :: open) + length g + 1))
    with (length (open ++ g ++ [c]))
    by (rewrite !length_app; simpl; lia).
  apply findall_group_from_skip.
Qed.

Lemma findall_group_from_sound (open : str) (c : N) (g : str) (s : str) :
  ∀ skip, g ∈ findall_group_from open c skip s →
  g ≠ [] ∧ (c ∉ g) ∧ ∃ before after, s = before ++ open ++ g ++ c :: after.
Proof.
  induction s as [|a s IH]; intros skip Hin; [by apply elem_of_nil in Hin|].
  assert (Htail : ∀ k, g ∈ findall_group_from open c k s →
            g ≠ [] ∧ (c ∉ g) ∧
            ∃ before after, a :: s = before ++ open ++ g ++ c :: after).
  { intros k Hk. destruct (IH k Hk) as (? & ? & before & after & ->).
    split; [done|]. split; [done|]. by exists (a :: before), after. }
  simpl in Hin. destruct skip as [|k]; [|by eapply Htail].
  destruct (match_group open c (a :: s)) as [[g0 len]|] eqn:Hm;
    [|by eapply Htail].
  apply elem_of_cons in Hin as [->|Hin]; [|by eapply Htail].
  apply match_group_spec in Hm as (? & ? & _ & rest & Hs).
  split; [done|]. split; [done|]. by exists [], rest.
Qed.

(** X12. The tag pattern reads back a tag list written between angle
    brackets: for tags that are not empty and hold no [>], extracting the
    tags of their bracketed concatenation gives the tags, in order. *)
Theorem findall_tags_bracketed (tags : list str) :
  Forall (fun t => t ≠ [] ∧ 62%N ∉ t) tags →
  findall_tags (bracketed tags) = tags.
Proof.
  unfold findall_tags, bracketed.
  induction 1 as [|t tags [Ht Hc] _ IH]; [done|].
  rewrite fmap_cons. cbn [concat]. rewrite <- !app_assoc.
  change (py ">" ++ concat ((fun t0 => py "<" ++ t0 ++ py ">") <$> tags))
    with (62%N :: concat ((fun t0 => py "<" ++ t0 ++ py ">") <$> tags)).
  rewrite findall_group_match by done. by rewrite IH.
Qed.

Lemma findall_tags_bracketed_witness :
  findall_tags (bracketed [py "c++"; py "<weird"; py "java"])
  = [py "c++"; py "<weird"; py "java"].
Proof.
  apply findall_tags_bracketed.
  repeat constructor; try done; by apply (bool_decide_unpack _).
Defined.

(** X13. Every tag the tag pattern extracts is not empty, holds no [>] and
    stands in the string between [<] and [>]; every target the link
    pattern extracts is not empty, holds no double quote and stands in the
    body between the opening of the hyperlink and a double quote. *)
Theorem extracted_groups_delimited (s g : str) :
  (g ∈ findall_tags s →
   g ≠ [] ∧ (62%N ∉ g) ∧
   ∃ before after, s = before ++ py "<" ++ g ++ py ">" ++ after) ∧
  (g ∈ findall_links s →
   g ≠ [] ∧ (quote ∉ g) ∧
   ∃ before after,
     s = before ++ (py "<a href=" ++ [quote]) ++ g ++ [quote] ++ after).
Proof.
  split; intros Hin.
  - by apply findall_group_from_sound in Hin.
  - by apply findall_group_from_sound in Hin.
Qed.

Lemma extracted_groups_delimited_witness :
  py "java" ≠ [] ∧ (62%N ∉ py "java") ∧
  ∃ before after,
    py "<python><java>" = before ++ py "<" ++ py "java" ++ py ">" ++ after.
Proof.
  apply (proj1 (extracted_groups_delimited (py "<python><java>") (py "java"))).
  by apply (bool_decide_unpack _).
Defined.

(** ** The features of a body *)

Lemma startswith_no_lt (pre s : str) :
  lt_sign ∉ s → startswith (lt_sign :: pre) s = false.
Proof.
  destruct s as [|b s]; [done|]. intros [Hne _]%not_elem_of_cons. simpl.
  by rewrite decide_False.
Qed.

Lemma findall_group_from_no_lt (pre : str) (c : N) (s : str) : ∀ skip,
  lt_sign ∉ s → findall_group_from (lt_sign :: pre) c skip s = [].
Proof.
  induction s as [|a s IH]; intros skip Hs; [done|].
  pose proof Hs as [_ Hs']%not_elem_of_cons.
  cbn [findall_group_from]. destruct skip as [|k]; [|by apply IH].
  unfold match_group. rewrite startswith_no_lt by done. by apply IH.
Qed.

Lemma findall_lazy_from_no_lt (pre close : str) (s : str) : ∀ skip,
  lt_sign ∉ s → findall_lazy_from (lt_sign :: pre) close skip s = [].
Proof.
  induction s as [|a s IH]; intros skip Hs; [done|].
  pose proof Hs as [_ Hs']%not_elem_of_cons.
  cbn [findall_lazy_from]. destruct skip as [|k]; [|by apply IH].
  unfold match_lazy. rewrite startswith_no_lt by done. by apply IH.
Qed.

Lemma search_img_no_lt (s : str) : lt_sign ∉ s → search_img s = false.
Proof.
  induction s as [|a s IH]; intros Hs; [done|].
  pose proof Hs as [_ Hs']%not_elem_of_cons.
  cbn [search_img].
  change (py "<img") with (lt_sign :: py "img").
  rewrite startswith_no_lt by done. simpl. by apply IH.
Qed.

Lemma answer_features_fields unicode_alnum body f :
  answer_features unicode_alnum body = Some f →
  word_count f = count_words unicode_alnum false body ∧
  length_bucket f = bucket_of (word_count f) ∧
  has_code f = existsb (fun cb => bool_decide
                          (MIN_CODE_LINES ≤ count_lines false cb)%nat)
                       (findall_code body) ∧
  has_image f = search_img body ∧
  has_ref f = existsb is_external (findall_links body).
Proof. destruct body; [done|]. intros [= <-]. by repeat split. Qed.

(** X14. A body that holds no [<] has none of the three markers: its
    [has_code], [has_image] and [has_ref] are all false. *)
Theorem plain_text_has_no_marker (unicode_alnum : N → bool) (body : str)
    (f : Features) :
  lt_sign ∉ body →
  answer_features unicode_alnum body = Some f →
  has_code f = false ∧ has_image f = false ∧ has_ref f = false.
Proof.
  intros Hlt (_ & _ & Hcode & Himg & Href)%answer_features_fields.
  rewrite Hcode, Himg, Href. unfold findall_code, findall_links, findall_group.
  change (py "<code>") with (lt_sign :: py "code>").
  change (py "<a href=" ++ [quote]) with (lt_sign :: py "a href=" ++ [quote]).
  rewrite findall_lazy_from_no_lt, findall_group_from_no_lt by done.
  by rewrite search_img_no_lt.
Qed.

Lemma plain_text_has_no_marker_witness :
  ∃ f, answer_features ascii_only (py "use a dict, not a list") = Some f ∧
       has_code f = false ∧ has_image f = false ∧ has_ref f = false.
Proof.
  eexists. split; [reflexivity|].
  apply (plain_text_has_no_marker ascii_only (py "use a dict, not a list"));
    [by apply (bool_decide_unpack _) | reflexivity].
Defined.

Lemma findall_lazy_from_skip (open close l rest : str) :
  findall_lazy_from open close (length l) (l ++ rest)
  = findall_lazy_from open close 0 rest.
Proof.
  induction l as [|a l IH]; simpl; [|done].
  by destruct rest.
Qed.

Lemma findall_lazy_from_before (pre close before s : str) :
  lt_sign ∉ before →
  findall_lazy_from (lt_sign :: pre) close 0 (before ++ s)
  = findall_lazy_from (lt_sign :: pre) close 0 s.
Proof.
  induction before as [|a before IH]; intros Hb; [done|].
  pose proof Hb as [_ Hb']%not_elem_of_cons.
  cbn [app findall_lazy_from]. unfold match_lazy.
  change (a :: before ++ s) with ((a :: before) ++ s).
  assert (Hs : startswith (lt_sign :: pre) ((a :: before) ++ s) = false).
  { apply not_elem_of_cons in Hb as [Hne _]. simpl. by rewrite decide_False. }
  rewrite Hs. by apply IH.
Qed.

Lemma before_first_app (close' g after : str) :
  lt_sign ∉ g →
  before_first (lt_sign :: close') (g ++ (lt_sign :: close') ++ after) = Some g.
Proof.
  induction g as [|a g IH]; intros Hg.
  - cbn [app]. destruct close'; simpl; rewrite ?decide_True by done.
    + done.
    + change (n :: close' ++ after) with ((n :: close') ++ after).
      by rewrite startswith_app.
  - apply not_elem_of_cons in Hg as [Hne Hg].
    change ((a :: g) ++ (lt_sign :: close') ++ after)
      with (a :: (g ++ (lt_sign :: close') ++ after)).
    cbn [before_first].
    assert (Hs : startswith (lt_sign :: close')
                   (a :: g ++ (lt_sign :: close') ++ after) = false)
      by (simpl; by rewrite decide_False).
    rewrite Hs, IH by done. done.
Qed.

Lemma findall_code_one_span (before code after : str) :
  lt_sign ∉ before → lt_sign ∉ code → lt_sign ∉ after →
  findall_code (code_body before code after) = [code].
Proof.
  intros Hb Hc Ha. unfold findall_code, code_body.
  change (py "<code>") with (lt_sign :: py "code>").
  change (py "</code>") with (lt_sign :: py "/code>").
  rewrite findall_lazy_from_before by done.
  set (open := lt_sign :: py "code>"). set (close := lt_sign :: py "/code>").
  assert (Hm : match_lazy open close (open ++ code ++ close ++ after)
               = Some (code, (length open + length code + length close)%nat)).
  { unfold match_lazy. rewrite startswith_app, drop_app_length.
    unfold close. by rewrite before_first_app. }
  change (findall_lazy_from open close 0 (open ++ code ++ close ++ after))
    with (match match_lazy open close (open ++ code ++ close ++ after) with
          | Some (g0, len) =>
              g0 :: findall_lazy_from open close (pred len)
                      (py "code>" ++ code ++ close ++ after)
          | None => findall_lazy_from open close 0
                      (py "code>" ++ code ++ close ++ after)
          end).
  rewrite Hm. f_equal.
  replace (py "code>" ++ code ++ close ++ after)
    with ((py "code>" ++ code ++ close) ++ after)
    by (by rewrite <- !app_assoc).
  replace (pred (length open + length code + length close))
    with (length (py "code>" ++ code ++ close))
    by (rewrite !length_app; simpl; lia).
  rewrite findall_lazy_from_skip. by apply findall_lazy_from_no_lt.
Qed.

(** X15. For a body with one code span and no other [<], [has_code] tells
    whether the text of the span has at least 5 lines. *)
Theorem has_code_counts_lines (unicode_alnum : N → bool)
    (before code after : str) :
  lt_sign ∉ before → lt_sign ∉ code → lt_sign ∉ after →
  has_code <$> answer_features unicode_alnum (code_body before code after)
  = Some (bool_decide (5 ≤ count_lines false code)%nat).
Proof.
  intros Hb Hc Ha.
  destruct (answer_features_Some unicode_alnum (code_body before code after))
    as (f & Hf & _).
  { unfold code_body. by destruct before. }
  rewrite Hf. simpl. f_equal.
  apply answer_features_fields in Hf as (_ & _ & -> & _).
  rewrite findall_code_one_span by done. simpl. by rewrite orb_false_r.
Qed.

Lemma has_code_counts_lines_witness :
  has_code <$> answer_features ascii_only
                 (code_body (py "try ") [97; 10; 98; 10; 99; 10; 100; 10; 101]%N
                            (py " ok"))
  = Some true.
Proof.
  rewrite has_code_counts_lines; [reflexivity | | |];
    by apply (bool_decide_unpack _).
Defined.

Lemma line_breaks_cons (c : N) (s : str) :
  line_breaks (c :: s)
  = ((if is_linebreak c then 1 else 0) + line_breaks s)%nat.
Proof.
  unfold line_breaks. rewrite filter_cons.
  destruct (is_linebreak c); [by rewrite decide_True | by rewrite decide_False].
Qed.

Lemma count_lines_lf (open_line : bool) (s : str) :
  count_lines open_line (10%N :: s) = S (count_lines false s).
Proof. by destruct s. Qed.

Lemma count_lines_breaks (s : str) : ∀ open_line,
  (count_lines open_line s ≤ line_breaks s + 1)%nat.
Proof.
  induction s as [|c s IH]; intros open_line; [destruct open_line; simpl; lia|].
  rewrite line_breaks_cons. cbn [count_lines].
  destruct (is_linebreak c) eqn:Hc.
  - destruct s as [|d s]; [simpl; lia|].
    destruct (bool_decide (c = 13%N) && bool_decide (d = 10%N)) eqn:Hcr.
    + apply andb_true_iff in Hcr as [_ Hd%bool_decide_eq_true]. subst d.
      specialize (IH false). rewrite count_lines_lf, line_breaks_cons in IH.
      change (is_linebreak 10) with true in IH.
      rewrite line_breaks_cons. change (is_linebreak 10) with true. lia.
    + specialize (IH false). lia.
  - specialize (IH true). lia.
Qed.

(** X16. A code span counts only with enough line breaks: when [has_code]
    is true, the body has a code span whose text holds at least 4
    line-break characters. *)
Theorem has_code_needs_line_breaks (unicode_alnum : N → bool) (body : str)
    (f : Features) :
  answer_features unicode_alnum body = Some f →
  has_code f = true →
  ∃ cb, cb ∈ findall_code body ∧ (4 ≤ line_breaks cb)%nat.
Proof.
  intros (_ & _ & Hcode & _)%answer_features_fields Htrue.
  rewrite Hcode in Htrue.
  apply existsb_exists in Htrue as (cb & Hin%list_elem_of_In & Hlines).
  exists cb. split; [done|].
  apply bool_decide_eq_true in Hlines. unfold MIN_CODE_LINES in Hlines.
  pose proof (count_lines_breaks cb false). lia.
Qed.

Lemma has_code_needs_line_breaks_witness :
  ∃ cb, cb ∈ findall_code
               (code_body [] [97; 10; 98; 10; 99; 10; 100; 10; 101]%N []) ∧
        (4 ≤ line_breaks cb)%nat.
Proof.
  eapply (has_code_needs_line_breaks ascii_only); reflexivity.
Defined.

(** ** Words *)

Lemma count_words_bound (unicode_alnum : N → bool) (s : str) :
  (2 * count_words unicode_alnum false s ≤ length s + 1)%nat ∧
  (2 * count_words unicode_alnum true s ≤ length s)%nat.
Proof.
  induction s as [|c s [IHf IHt]]; [simpl; lia|].
  cbn [count_words length].
  destruct (is_word_char unicode_alnum c); lia.
Qed.

(** X17. Words take room: the word count is at most half the length of the
    body, rounded up, so a body of fewer than 801 characters is never
    [Long] and a body of fewer than 299 characters is [Summarized]. *)
Theorem short_body_is_not_long (unicode_alnum : N → bool) (body : str)
    (f : Features) :
  answer_features unicode_alnum body = Some f →
  (2 * word_count f ≤ length body + 1)%nat ∧
  ((length body < 801)%nat → length_bucket f ≠ Long) ∧
  ((length body < 299)%nat → length_bucket f = Summarized).
Proof.
  intros (Hw & Hb & _)%answer_features_fields.
  pose proof (proj1 (count_words_bound unicode_alnum body)) as Hbound.
  rewrite <- Hw in Hbound. split; [done|]. rewrite Hb. split.
  - intros Hlen HL%bucket_of_Long. lia.
  - intros Hlen. apply bucket_of_Summarized. lia.
Qed.

Lemma short_body_is_not_long_witness :
  ∃ f, answer_features ascii_only (words_body 149) = Some f ∧
       length_bucket f = Summarized.
Proof.
  eexists. split; [reflexivity|].
  eapply (proj2 (proj2 (short_body_is_not_long ascii_only (words_body 149) _
                          eq_refl))).
  vm_compute. lia.
Defined.

(** ** The table of the answers *)

Section AnswerTableFacts.
Variable unicode_alnum : N → bool.
Variable user_shape : gmap Z Shape.t.

Lemma answer_step_skips (p : PostRow) :
  ¬ kept_answer user_shape p →
  answer_step unicode_alnum user_shape p = Ok None.
Proof.
  intros Hn. unfold answer_step. case_bool_decide as Ht; [done|].
  destruct (OwnerUserId p) as [uid|] eqn:Ho; [|done].
  destruct (user_shape !! uid) as [sh|] eqn:Hs; [|done].
  exfalso. apply Hn. split; [lia|]. exists uid. by rewrite Hs.
Qed.

Lemma answer_step_keeps (p : PostRow) :
  kept_answer user_shape p →
  answer_step unicode_alnum user_shape p
  = match Id p with
    | None => Raise TypeError
    | Some aid =>
        Ok (match OwnerUserId p with
            | Some uid =>
                sh ← user_shape !! uid;
                Some {| feats := answer_features unicode_alnum
                                   (default [] (Body p));
                        answer_id := aid; owner_id := uid; shape := sh;
                        upvotes := default 0 (Score p);
                        accepted := bool_decide
                          (default 0 (AcceptedAnswerId p) = aid) |}
            | None => None
            end)
    end.
Proof.
  intros [Ht (uid & Ho & [sh Hs])]. unfold answer_step.
  rewrite bool_decide_eq_false_2 by lia. rewrite Ho, Hs.
  by destruct (Id p).
Qed.

Lemma answers_pass_kept (posts : list PostRow) : ∀ answer_df rows,
  answers_pass unicode_alnum user_shape answer_df posts = Ok rows →
  answer_id <$> rows
  = (answer_id <$> answer_df)
    ++ omap Id (filter (kept_answer user_shape) posts) ∧
  length rows
  = (length answer_df + length (filter (kept_answer user_shape) posts))%nat ∧
  ∀ r, r ∈ rows → r ∈ answer_df ∨
    ∃ p, p ∈ posts ∧ kept_answer user_shape p ∧
         Id p = Some (answer_id r) ∧
         OwnerUserId p = Some (owner_id r) ∧
         user_shape !! owner_id r = Some (shape r) ∧
         upvotes r = default 0 (Score p) ∧
         feats r = answer_features unicode_alnum (default [] (Body p)).
Proof.
  induction posts as [|p posts IH]; intros answer_df rows Hrun; simpl in Hrun.
  - injection Hrun as <-. rewrite app_nil_r. simpl. repeat split; [lia|eauto].
  - apply bind_Ok in Hrun as (o & Hstep & Hrun).
    destruct (IH _ _ Hrun) as (Hids & Hlen & Hrows). clear IH Hrun.
    rewrite filter_cons.
    destruct (decide (kept_answer user_shape p)) as [Hk|Hk].
    + rewrite (answer_step_keeps p Hk) in Hstep.
      destruct Hk as [Ht (uid & Ho & [sh Hs])].
      destruct (Id p) as [aid|] eqn:Hid; [|discriminate].
      rewrite Ho, Hs in Hstep. simpl in Hstep. injection Hstep as <-.
      rewrite fmap_app in Hids. simpl in Hids. rewrite <- app_assoc in Hids.
      rewrite length_app in Hlen. simpl in Hlen.
      split; [by rewrite Hids; simpl; rewrite Hid|]. split; [simpl; lia|].
      intros r Hr. destruct (Hrows r Hr) as [Hin|(p' & Hin & Hrest)].
      * apply elem_of_app in Hin as [Hin|Hin%list_elem_of_singleton];
          [by left|]. subst r. right. exists p. simpl.
        split; [left|]. split; [|done].
        split; [lia|]. exists uid. by rewrite Hs.
      * right. exists p'. split; [by right | done].
    + rewrite (answer_step_skips p Hk) in Hstep. injection Hstep as <-.
      split; [done|]. split; [done|].
      intros r Hr. destruct (Hrows r Hr) as [Hin|(p' & Hin & Hrest)];
        [by left|].
      right. exists p'. split; [by right | done].
Qed.

(** X18. When the loop over the posts returns, the table has one row for
    each answer post whose owner has a shape, in the order of the posts and
    with the post's [Id]; every row carries its owner's shape, the post's
    score and the features of the post's body; posts of another type and
    posts of users without a shape give no row. *)
Theorem answer_table_rows (posts : list PostRow) (rows : list AnswerRow) :
  parse_answers unicode_alnum user_shape posts = Ok rows →
  answer_id <$> rows = omap Id (filter (kept_answer user_shape) posts) ∧
  length rows = length (filter (kept_answer user_shape) posts) ∧
  ∀ r, r ∈ rows →
    ∃ p, p ∈ posts ∧ default 0 (PostTypeId p) = 2 ∧
         Id p = Some (answer_id r) ∧
         OwnerUserId p = Some (owner_id r) ∧
         user_shape !! owner_id r = Some (shape r) ∧
         upvotes r = default 0 (Score p) ∧
         feats r = answer_features unicode_alnum (default [] (Body p)).
Proof.
  intros Hrun. apply answers_pass_kept in Hrun as (Hids & Hlen & Hrows).
  split; [done|]. split; [done|].
  intros r Hr. destruct (Hrows r Hr) as [Hin|(p & Hin & [Ht _] & Hrest)];
    [by apply elem_of_nil in Hin|].
  exists p. by repeat split; try apply Hrest.
Qed.

Lemma answers_pass_raise (posts : list PostRow) : ∀ answer_df e,
  answers_pass unicode_alnum user_shape answer_df posts = Raise e ↔
  e = TypeError ∧
  Exists (fun p => kept_answer user_shape p ∧ Id p = None) posts.
Proof.
  induction posts as [|p posts IH]; intros answer_df e; simpl.
  - split; [discriminate|]. intros [_ H]. by apply Exists_nil in H.
  - rewrite Exists_cons.
    destruct (decide (kept_answer user_shape p)) as [Hk|Hk].
    + rewrite (answer_step_keeps p Hk).
      destruct (Id p) as [aid|] eqn:Hid; simpl.
      * rewrite IH. split; [tauto|]. intros [-> [[_ [=]]|H]]. by split.
      * split; [intros [= <-]; eauto | by intros [-> _]].
    + rewrite (answer_step_skips p Hk). simpl. rewrite IH.
      split; [tauto|]. intros [-> [[? _]|H]]; [done | by split].
Qed.

(** X19. The loop over the posts raises exactly when an answer post whose
    owner has a shape lacks its [Id], and the exception is then a
    [TypeError]; a missing [Id] on any other post, a missing body, score or
    type raise nothing. *)
Theorem answer_table_raises (posts : list PostRow) (e : exn) :
  parse_answers unicode_alnum user_shape posts = Raise e ↔
  e = TypeError ∧
  Exists (fun p => kept_answer user_shape p ∧ Id p = None) posts.
Proof. apply answers_pass_raise. Qed.

Lemma filter_nil_Forall {A} (P : A → Prop) `{!∀ x, Decision (P x)}
    (l : list A) :
  filter P l = [] ↔ Forall (fun x => ¬ P x) l.
Proof.
  induction l as [|x l IH]; [by split|].
  rewrite filter_cons, Forall_cons. case_decide; [|tauto].
  split; [done | tauto].
Qed.

(** X20. A table without rows stops the labelling: when the loop over the
    posts returns, the [preferred] column raises [KeyError] exactly when no
    post is an answer of a user with a shape, and otherwise holds one label
    for each such post. *)
Theorem empty_table_raises (posts : list PostRow) (rows : list AnswerRow) :
  parse_answers unicode_alnum user_shape posts = Ok rows →
  (preferred_column rows = Raise KeyError ↔
   Forall (fun p => ¬ kept_answer user_shape p) posts) ∧
  (Exists (kept_answer user_shape) posts →
   ∃ column, preferred_column rows = Ok column ∧
             length column
             = length (filter (kept_answer user_shape) posts)).
Proof.
  intros Hrun. apply answers_pass_kept in Hrun as (_ & Hlen & _).
  simpl in Hlen.
  assert (Hnil : rows = [] ↔ Forall (fun p => ¬ kept_answer user_shape p) posts).
  { rewrite <- filter_nil_Forall, <- !length_zero_iff_nil. by rewrite Hlen. }
  split.
  - rewrite <- Hnil. destruct rows; simpl; split; done.
  - intros Hex. destruct rows as [|r rows].
    + apply proj1 in Hnil. specialize (Hnil eq_refl).
      apply Exists_exists in Hex as (p & Hin & Hk).
      rewrite Forall_forall in Hnil. by destruct (Hnil p Hin).
    + eexists. split; [reflexivity|]. by rewrite length_fmap.
Qed.
End AnswerTableFacts.

Lemma answer_table_rows_witness :
  ∃ rows, parse_answers ascii_only sample_shapes sample_posts = Ok rows ∧
          length rows
          = length (filter (kept_answer sample_shapes) sample_posts).
Proof.
  eexists. split; [reflexivity|].
  exact (proj1 (proj2 (answer_table_rows ascii_only sample_shapes
                         sample_posts _ eq_refl))).
Defined.

Lemma empty_table_raises_witness :
  preferred_column [] = Raise KeyError.
Proof.
  refine (proj2 (proj1 (empty_table_raises ascii_only (∅ : gmap Z Shape.t)
                          sample_posts [] _)) _); [vm_compute; reflexivity|].
  apply Forall_forall. intros p _ [_ (uid & _ & [sh Hs])].
  by rewrite lookup_empty in Hs.
Defined.

(** ** The rows of the report *)

Lemma lookup_insert_cases {V} (row : gmap str V) (k0 k : str) (y x : V) :
  <[k0 := y]> row !! k = Some x → row !! k = Some x ∨ (k = k0 ∧ x = y).
Proof.
  destruct (decide (k0 = k)) as [->|Hne].
  - rewrite lookup_insert_eq. intros [= <-]. by right.
  - rewrite lookup_insert_ne by done. by left.
Qed.

Section ReportFacts.
Context {Xrow coef : Type}.
Variable fit : list Xrow → list Z → result (list coef * coef).
Variable round3 : coef → coef.

Lemma row_step_keys (row : gmap str coef) (c : str) (v : coef)
    (k : str) (x : coef) :
  row_step round3 row (c, v) !! k = Some x →
  row !! k = Some x ∨ (k ∈ REPORT_COLUMNS ∧ x = round3 v).
Proof.
  unfold row_step.
  repeat match goal with
         | |- context [if ?b then _ else _] => destruct b
         end;
    try (by left);
    (intros [?|[-> ->]]%lookup_insert_cases; [by left|]; right;
     split; [|done]; apply (bool_decide_unpack _); vm_compute; reflexivity).
Qed.

Lemma table_row_keys (cols : list str) (coefs : list coef) (k : str)
    (x : coef) :
  table_row round3 cols coefs !! k = Some x →
  k ∈ REPORT_COLUMNS ∧
  ∃ c v, (c, v) ∈ zip cols coefs ∧ x = round3 v.
Proof.
  unfold table_row.
  assert (H : ∀ (l : list (str * coef)) row,
            foldl (row_step round3) row l !! k = Some x →
            row !! k = Some x ∨
            (k ∈ REPORT_COLUMNS ∧ ∃ c v, (c, v) ∈ l ∧ x = round3 v)).
  { induction l as [|[c v] l IH]; intros row Hk; simpl in Hk; [by left|].
    destruct (IH _ Hk) as [Hrow|(Hin & c' & v' & Hcv & ->)].
    - apply row_step_keys in Hrow as [Hrow|[Hin ->]]; [by left|].
      right. split; [done|]. exists c, v. split; [left | done].
    - right. split; [done|]. exists c', v'. split; [by right | done]. }
  intros Hk. destruct (H _ _ Hk) as [Hemp|Hok]; [|done].
  by rewrite lookup_empty in Hemp.
Qed.

Lemma select_length {A} (mask : list bool) (l : list A) :
  length mask = length l → length (select mask l) = mask_sum mask.
Proof.
  unfold mask_sum. revert l.
  induction mask as [|b mask IH]; intros [|x l] Hlen; try done.
  simpl in Hlen. rewrite filter_cons. destruct b; simpl.
  - f_equal. apply IH. lia.
  - apply IH. lia.
Qed.

Lemma regression_loop_values answers cols X y shapes : ∀ results0 results s row,
  regression_loop fit round3 answers cols X y shapes results0 = Ok results →
  results !! s = Some row →
  results0 !! s = Some row ∨
  ∃ fitted,
    fit (select (mask_of answers s) X) (select (mask_of answers s) y)
      = Ok fitted ∧
    row = table_row round3 cols fitted.1.
Proof.
  induction shapes as [|s0 shapes IH]; intros results0 results s row Hrun Hrow;
    simpl in Hrun.
  - injection Hrun as <-. by left.
  - case_bool_decide; [by eapply IH|].
    apply bind_Ok in Hrun as (fitted & Hfit & Hrun).
    destruct (IH _ _ _ _ Hrun Hrow) as [Hold|Hnew]; [|by right].
    destruct (decide (s0 = s)) as [->|Hne].
    + rewrite lookup_insert_eq in Hold. injection Hold as <-. right. eauto.
    + rewrite lookup_insert_ne in Hold by done. by left.
Qed.

(** X21. Each row of the result comes from the solver run on the answers
    of its shape alone: it is built from the coefficients fitted on the
    rows of [X] and [y] selected by the shape's mask; its keys are among
    the five columns of the report, so that [reindex] drops nothing, and
    its values are rounded coefficients of that fit. *)
Theorem report_rows_from_segment_fit (answers : list AnswerRow)
    (cols : list str) (X : list Xrow) (y : list Z)
    (results : gmap Shape.t (gmap str coef)) (s : Shape.t)
    (row : gmap str coef) :
  regression_results fit round3 answers cols X y = Ok results →
  results !! s = Some row →
  ∃ fitted,
    fit (select (mask_of answers s) X) (select (mask_of answers s) y)
      = Ok fitted ∧
    row = table_row round3 cols fitted.1 ∧
    ∀ k x, row !! k = Some x →
           k ∈ REPORT_COLUMNS ∧
           ∃ c v, (c, v) ∈ zip cols fitted.1 ∧ x = round3 v.
Proof.
  intros Hrun Hrow. unfold regression_results in Hrun.
  destruct (regression_loop_values _ _ _ _ _ _ _ _ _ Hrun Hrow)
    as [Hemp|(fitted & Hfit & ->)]; [by rewrite lookup_empty in Hemp|].
  exists fitted. split; [done|]. split; [done|].
  intros k x. apply table_row_keys.
Qed.

Lemma regression_loop_total_large answers cols X y shapes :
  length X = length answers → length y = length answers →
  (∀ X_s y_s, (100 ≤ length X_s)%nat → length y_s = length X_s →
              ∃ fitted, fit X_s y_s = Ok fitted) →
  ∀ results0, ∃ results,
    regression_loop fit round3 answers cols X y shapes results0 = Ok results.
Proof.
  intros HX Hy Hfit. induction shapes as [|s0 shapes IH]; intros results0;
    simpl; [eauto|].
  case_bool_decide as Hsmall; [apply IH|].
  assert (Hm : length (mask_of answers s0) = length answers)
    by (unfold mask_of; by rewrite length_fmap).
  destruct (Hfit (select (mask_of answers s0) X) (select (mask_of answers s0) y))
    as [fitted ->].
  - rewrite select_length by lia. unfold MIN_SEGMENT_SIZE in Hsmall. lia.
  - rewrite !select_length by lia. done.
  - simpl. apply IH.
Qed.

(** X22. The solver is never run on a small segment: with [X] and [y]
    holding one row for each answer, the loop returns as soon as the solver
    returns on every input of at least 100 rows with as many labels,
    whatever it does on smaller inputs. *)
Theorem solver_runs_on_large_segments_only (answers : list AnswerRow)
    (cols : list str) (X : list Xrow) (y : list Z) :
  length X = length answers → length y = length answers →
  (∀ X_s y_s, (100 ≤ length X_s)%nat → length y_s = length X_s →
              ∃ fitted, fit X_s y_s = Ok fitted) →
  ∃ results, regression_results fit round3 answers cols X y = Ok results.
Proof. intros HX Hy Hfit. by apply regression_loop_total_large. Qed.

Lemma regression_loop_raise answers cols X y shapes : ∀ results0 e,
  regression_loop fit round3 answers cols X y shapes results0 = Raise e →
  ∃ s, s ∈ shapes ∧ (100 ≤ segment_size s answers)%nat ∧
       fit (select (mask_of answers s) X) (select (mask_of answers s) y)
       = Raise e.
Proof.
  induction shapes as [|s0 shapes IH]; intros results0 e Hrun; simpl in Hrun;
    [discriminate|].
  rewrite mask_sum_segment in Hrun. case_bool_decide as Hsmall.
  - destruct (IH _ _ Hrun) as (s & Hin & Hrest). exists s. split; [by right|done].
  - destruct (fit _ _) as [fitted|e'] eqn:Hfit; simpl in Hrun.
    + destruct (IH _ _ Hrun) as (s & Hin & Hrest). exists s.
      split; [by right|done].
    + injection Hrun as ->. exists s0. split; [left|].
      split; [unfold MIN_SEGMENT_SIZE in Hsmall; lia | done].
Qed.

(** X23. The loop over the shapes raises only what the solver raises: if
    it raises, the solver raised that exception on the segment of a shape
    of the table that has at least 100 answers. *)
Theorem regression_raises_from_solver (answers : list AnswerRow)
    (cols : list str) (X : list Xrow) (y : list Z) (e : exn) :
  regression_results fit round3 answers cols X y = Raise e →
  ∃ s, s ∈ shape <$> answers ∧ (100 ≤ segment_size s answers)%nat ∧
       fit (select (mask_of answers s) X) (select (mask_of answers s) y)
       = Raise e.
Proof.
  intros Hrun. apply regression_loop_raise in Hrun as (s & Hin & Hrest).
  exists s. split; [by apply categories_elem | done].
Qed.
End ReportFacts.

Lemma report_rows_from_segment_fit_witness :
  ∃ fitted,
    sample_fit (select (mask_of sample_table Shape.I) [])
               (select (mask_of sample_table Shape.I) []) = Ok fitted ∧
    (∅ : gmap str Z) = table_row id [] fitted.1.
Proof.
  destruct (report_rows_from_segment_fit sample_fit id sample_table [] [] []
              {[Shape.I := ∅]} Shape.I ∅)
    as (fitted & Hfit & Hrow & _);
    [vm_compute; reflexivity | vm_compute; reflexivity |].
  by exists fitted.
Defined.

Lemma solver_runs_on_large_segments_only_witness :
  ∃ results,
    regression_results sample_fit id sample_table []
      (replicate 199 []) (replicate 199 0) = Ok results.
Proof.
  apply solver_runs_on_large_segments_only.
  - vm_compute. reflexivity.
  - vm_compute. reflexivity.
  - intros X_s y_s _ _. by eexists.
Defined.

Lemma regression_raises_from_solver_witness :
  ∃ s, s ∈ shape <$> sample_table ∧ (100 ≤ segment_size s sample_table)%nat ∧
       failing_fit (select (mask_of sample_table s) [])
                   (select (mask_of sample_table s) []) = Raise FitError.
Proof.
  apply (regression_raises_from_solver failing_fit id sample_table [] [] []).
  vm_compute. reflexivity.
Defined.

(** ** The significance stars *)

Lemma star_literals :
  f0_001 = S754_finite false 4611686018427388 (-62) ∧
  f0_01 = S754_finite false 5764607523034235 (-59) ∧
  f0_05 = S754_finite false 7205759403792794 (-57).
Proof. repeat apply conj; vm_compute; reflexivity. Qed.

Lemma flt_finite_weaken (p : float) (m1 m2 : positive) (e1 e2 : Z) :
  e1 < e2 →
  flt p (S754_finite false m1 e1) = true →
  flt p (S754_finite false m2 e2) = true.
Proof.
  intros He. unfold flt, SFltb.
  destruct p as [s|s| |s m e]; simpl; try done.
  destruct s; [done|].
  destruct (Z.compare_spec e e1) as [->|Hlt|Hgt]; try done.
  - intros _. by rewrite (proj2 (Z.compare_lt_iff e1 e2) He).
  - intros _. by rewrite (proj2 (Z.compare_lt_iff e e2)) by lia.
Qed.

(** X24. The thresholds of [star] are nested, so the number of stars is
    the number of thresholds 0.05, 0.01 and 0.001 that the value is
    strictly below; no star is returned exactly when the value is not below
    0.05, which is the case of a NaN. *)
Theorem star_counts_thresholds (p : float) :
  length (star p)
  = ((if flt p f0_05 then 1 else 0) + (if flt p f0_01 then 1 else 0)
     + (if flt p f0_001 then 1 else 0))%nat ∧
  (star p = [] ↔ flt p f0_05 = false) ∧
  star S754_nan = [].
Proof.
  destruct star_literals as (H1 & H2 & H3).
  assert (N1 : flt p f0_001 = true → flt p f0_01 = true).
  { rewrite H1, H2. by apply flt_finite_weaken. }
  assert (N2 : flt p f0_01 = true → flt p f0_05 = true).
  { rewrite H2, H3. by apply flt_finite_weaken. }
  unfold star.
  destruct (flt p f0_001) eqn:E1; [rewrite N1, N2 by auto; by repeat split|].
  destruct (flt p f0_01) eqn:E2; [rewrite N2 by auto; by repeat split|].
  destruct (flt p f0_05) eqn:E3; by repeat split.
Qed.

(** ** The script up to the table of the answers *)

Lemma classified_answers_inv unicode_alnum tag_rows users posts rows :
  classified_answers unicode_alnum tag_rows users posts = Ok rows →
  ∃ user_rep user_shape,
    users_pass MIN_REPUTATION ∅ users = Ok user_rep ∧
    classify_users (posts_pass (load_top_tags tag_rows) user_rep posts)
      = Ok user_shape ∧
    (∀ uid, user_shape !! uid
            = posts_pass (load_top_tags tag_rows) user_rep posts !! uid
              ≫= spec_classify) ∧
    parse_answers unicode_alnum user_shape posts = Ok rows.
Proof.
  unfold classified_answers, build_tag_reputation. intros Hrun.
  apply bind_Ok in Hrun as ([user_rep user_tags] & Hbuild & Hrun).
  apply bind_Ok in Hbuild as (m & Husers & [= -> <-]).
  apply bind_Ok in Hrun as (user_shape & Hshapes & Hrun). simpl in Hshapes.
  exists user_rep, user_shape. split; [done|]. split; [done|]. split; [|done].
  destruct (classify_users_spec
              (posts_pass (load_top_tags tag_rows) user_rep posts))
    as (us & Hus & Hspec).
  { intros uid cnt Hcnt t g Hg.
    by destruct (proj2 (posts_pass_inv _ user_rep posts uid cnt Hcnt) t g Hg). }
  rewrite Hus in Hshapes. by injection Hshapes as <-.
Qed.

(** X25. Every row of the table of the answers goes back through the
    stages: its owner has a user row with a reputation of at least 100, its
    shape is that of the owner's counter in the profile, whose tags are all
    among the top tags of the tag stream, and its identifier is that of an
    answer post of that owner. *)
Theorem answer_rows_provenance (unicode_alnum : N → bool)
    (tag_rows : list TagRow) (users : list UserRow) (posts : list PostRow)
    (rows : list AnswerRow) (r : AnswerRow) :
  classified_answers unicode_alnum tag_rows users posts = Ok rows →
  r ∈ rows →
  (∃ u rep, u ∈ users ∧ user_Id u = Some (owner_id r) ∧
            Reputation u = Some rep ∧ 100 ≤ rep) ∧
  (∃ user_rep cnt,
     users_pass MIN_REPUTATION ∅ users = Ok user_rep ∧
     posts_pass (load_top_tags tag_rows) user_rep posts !! owner_id r
       = Some cnt ∧
     spec_classify cnt = Some (shape r) ∧
     ∀ t, is_Some (cnt !! t) → Some t ∈ load_top_tags tag_rows) ∧
  (∃ p, p ∈ posts ∧ default 0 (PostTypeId p) = 2 ∧
        Id p = Some (answer_id r) ∧ OwnerUserId p = Some (owner_id r)).
Proof.
  intros Hrun Hr.
  apply classified_answers_inv in Hrun
    as (user_rep & user_shape & Husers & _ & Hspec & Hparse).
  apply answers_pass_kept in Hparse as (_ & _ & Hrows).
  destruct (Hrows r Hr) as [Hin|(p & Hin & [Ht _] & Hid & Ho & Hs & _)];
    [by apply elem_of_nil in Hin|].
  rewrite Hspec in Hs.
  destruct (posts_pass (load_top_tags tag_rows) user_rep posts !! owner_id r)
    as [cnt|] eqn:Hcnt; [|done]. simpl in Hs.
  destruct (posts_pass_inv _ user_rep posts _ _ Hcnt) as [[rep Hrep] Htags].
  split; [|split].
  - destruct (users_pass_inv _ _ _ _ Husers _ _ Hrep)
      as [Hemp|(Hmin & u & Hu & Huid & Hurep)];
      [by rewrite lookup_empty in Hemp|].
    exists u, rep. by repeat split.
  - exists user_rep, cnt. repeat split; try done.
    intros t [g Hg]. by destruct (Htags t g Hg).
  - exists p. by repeat split.
Qed.

Lemma answer_rows_provenance_witness :
  ∃ u rep, u ∈ sample_users ∧ user_Id u = Some 1 ∧ Reputation u = Some rep ∧
           100 ≤ rep.
Proof.
  refine (proj1 (answer_rows_provenance ascii_only run_tags sample_users
                   run_posts [run_row] run_row _ _)).
  - vm_compute. reflexivity.
  - left.
Defined.

(** X26. Up to the table of the answers the script raises nothing but a
    [TypeError], for a user row without [Id] or [Reputation] or an answer
    post of a classified user without [Id]: the divisions and the indexing
    of the classifier never raise on the profiles the build gives. *)
Theorem classified_answers_raises_type_error (unicode_alnum : N → bool)
    (tag_rows : list TagRow) (users : list UserRow) (posts : list PostRow)
    (e : exn) :
  classified_answers unicode_alnum tag_rows users posts = Raise e →
  e = TypeError ∧
  (Exists (fun u => user_Id u = None ∨ Reputation u = None) users ∨
   Exists (fun p => default 0 (PostTypeId p) = 2 ∧ is_Some (OwnerUserId p) ∧
                    Id p = None) posts).
Proof.
  unfold classified_answers, build_tag_reputation. intros Hrun.
  destruct (users_pass MIN_REPUTATION ∅ users) as [user_rep|e'] eqn:Husers.
  - simpl in Hrun.
    destruct (classify_users_spec
                (posts_pass (load_top_tags tag_rows) user_rep posts))
      as (us & Hus & _).
    { intros uid cnt Hcnt t g Hg.
      by destruct (proj2 (posts_pass_inv _ user_rep posts uid cnt Hcnt) t g Hg). }
    rewrite Hus in Hrun. simpl in Hrun.
    apply answers_pass_raise in Hrun as [-> Hex]. split; [done|]. right.
    eapply Exists_impl; [exact Hex|]. simpl.
    intros p [[Ht (uid & Ho & _)] Hid]. rewrite Ho. eauto.
  - simpl in Hrun. injection Hrun as ->.
    apply users_pass_raise in Husers as [-> Hex]. by split; [|left].
Qed.

Lemma classified_answers_raises_type_error_witness :
  TypeError = TypeError ∧
  (Exists (fun u => user_Id u = None ∨ Reputation u = None)
          [ {| user_Id := None; Reputation := Some 500 |} ] ∨
   Exists (fun p => default 0 (PostTypeId p) = 2 ∧ is_Some (OwnerUserId p) ∧
                    Id p = None) sample_posts).
Proof.
  apply (classified_answers_raises_type_error ascii_only [] _ _ TypeError).
  reflexivity.
Defined.

Lemma posts_pass_empty_allowlist (user_rep : gmap Z Z) (posts : list PostRow) :
  posts_pass [] user_rep posts = ∅.
Proof.
  unfold posts_pass.
  assert (Hs : ∀ tags, surviving_tags [] tags = []).
  { intros tags. unfold surviving_tags.
    apply filter_nil_Forall, Forall_forall. intros t _.
    unfold in_top_tags. rewrite bool_decide_eq_false_2; [done|].
    apply not_elem_of_nil. }
  assert (Hstep : ∀ ut p, post_step [] user_rep ut p = ut).
  { intros ut p. unfold post_step.
    destruct (OwnerUserId p) as [uid|]; [|done].
    destruct (user_rep !! uid); [|done].
    destruct (Tags p) as [[|c tags]|]; try done. by rewrite Hs. }
  generalize (∅ : gmap Z (gmap str Z)).
  induction posts as [|p posts IH]; intros ut; simpl; [done|].
  by rewrite Hstep.
Qed.

(** X27. Without any tag in the tag stream nobody is classified: when
    every user row has its [Id] and [Reputation], the table of the answers
    is empty whatever the posts are, and the labelling that follows raises
    [KeyError]. *)
Theorem empty_tag_stream_stops_the_script (unicode_alnum : N → bool)
    (users : list UserRow) (posts : list PostRow) :
  Forall (fun u => is_Some (user_Id u) ∧ is_Some (Reputation u)) users →
  classified_answers unicode_alnum [] users posts = Ok [] ∧
  (classified_answers unicode_alnum [] users posts ≫= preferred_column)
  = Raise KeyError.
Proof.
  intros Hall.
  assert (Hrun : classified_answers unicode_alnum [] users posts = Ok []).
  { unfold classified_answers, build_tag_reputation.
    destruct (users_pass_total MIN_REPUTATION users ∅ Hall) as [user_rep ->].
    simpl. change (load_top_tags []) with (@nil (option str)).
    rewrite posts_pass_empty_allowlist.
    change (classify_users ∅) with (Ok (∅ : gmap Z Shape.t)). simpl.
    destruct (parse_answers unicode_alnum ∅ posts) as [rows|e] eqn:Hparse.
    - apply answers_pass_kept in Hparse as (_ & Hlen & _). simpl in Hlen.
      destruct rows as [|r rows]; [done|]. exfalso.
      assert (Hnil : filter (kept_answer (∅ : gmap Z Shape.t)) posts = []).
      { apply filter_nil_Forall, Forall_forall.
        intros p _ [_ (uid & _ & [sh Hs])]. by rewrite lookup_empty in Hs. }
      rewrite Hnil in Hlen. simpl in Hlen. lia.
    - apply answers_pass_raise in Hparse as [_ Hex].
      apply Exists_exists in Hex as (p & _ & [_ (uid & _ & [sh Hs])] & _).
      by rewrite lookup_empty in Hs. }
  split; [done|]. by rewrite Hrun.
Qed.

Lemma empty_tag_stream_stops_the_script_witness :
  classified_answers ascii_only [] sample_users sample_posts = Ok [].
Proof.
  apply (proj1 (empty_tag_stream_stops_the_script ascii_only sample_users
                  sample_posts ltac:(repeat constructor; by eexists))).
Defined.
